(** * Orchestration layer of the Woboq code browser generator

    A shallow embedding of the parts of [src/generator/projectmanager.{h,cpp}]
    and [src/generator/main.cpp] that decide which file is processed, with
    which compile command, and how often. *)

From stdpp Require Import base gmap sets list strings pretty.
From Stdlib Require Import String Ascii Lia Sorted.

Open Scope string_scope.
Open Scope list_scope.
Open Scope nat_scope.

(** ** Data model: [struct ProjectInfo] (projectmanager.h) *)

Inductive ProjType := Normal | Internal | External.

Record ProjectInfo := mkProjectInfo {
  name : string;
  source_path : string;
  revision : string;
  external_root_url : string;
  type : ProjType
}.

Definition with_source_path (info : ProjectInfo) (sp : string) : ProjectInfo :=
  mkProjectInfo info.(name) sp info.(revision) info.(external_root_url) info.(type).

(** [filename[filename.size() - 1]] for a non-empty string *)
Definition last_char (s : string) : option ascii :=
  String.get (String.length s - 1) s.

Module Registry.

(** ** [ProjectManager::addProject]

    [canonicalize] lives in filesystem.h; the result of [addProject] does not
    depend on what it computes, so it is kept abstract. The registry
    [projects] is the [std::vector<ProjectInfo>]; the returned pair is the
    boolean result and the vector after the call. *)
Section AddProject.
Variable canonicalize : string -> string.

Definition addProject (projects : list ProjectInfo) (info : ProjectInfo)
  : bool * list ProjectInfo :=
  if String.eqb info.(source_path) "" then (false, projects) else
  let filename := canonicalize info.(source_path) in
  if String.eqb filename "" then (false, projects) else
  let filename :=
    match last_char filename with
    | Some "/"%char => filename
    | _ => String.append filename "/"
    end in
  (true, (projects ++ [with_source_path info filename])%list).
End AddProject.

(** ** [ProjectManager::projectForFile]

    The returned [ProjectInfo *] points into the vector [projects]; it is
    modelled as the index of the element. [match_length] is an
    [unsigned int]; source paths are taken to be shorter than 2^32 bytes, so
    the narrowing of [size()] is not written out. *)
Fixpoint projectForFile_loop (ps : list ProjectInfo) (i : nat) (filename : string)
    (match_length : nat) (result : option nat) : option nat :=
  match ps with
  | [] => result
  | it :: rest =>
      let sp := it.(source_path) in
      if String.length sp <? match_length then
        projectForFile_loop rest (S i) filename match_length result
      else if String.prefix sp filename then
        projectForFile_loop rest (S i) filename (String.length sp) (Some i)
      else projectForFile_loop rest (S i) filename match_length result
  end.

Definition projectForFile (projects : list ProjectInfo) (filename : string) : option nat :=
  projectForFile_loop projects 0 filename 0 None.

End Registry.

(** ** Sequential traces of atomic calls

    Every call of [shouldProcess] and of [ProcessedSet::try_insert] touches
    its shared set only inside one critical section ([std::lock_guard]), so
    any concurrent run behaves like some sequence of whole calls. A trace runs
    a step function over such a sequence, threading the shared state. *)
Section Trace.
Context {A R S : Type}.

Fixpoint run_trace (step : A -> S -> R * S) (calls : list A) (st : S) : list R * S :=
  match calls with
  | [] => ([], st)
  | c :: rest =>
      let (r, st') := step c st in
      let (rs, st'') := run_trace step rest st' in
      (r :: rs, st'')
  end.
End Trace.

Module Guard.

(** [ProjectManager::addFile_Locked]: insert into [exists_files_] under the
    manager's mutex, returning whether the insertion took place. *)
Definition addFile_Locked (file : string) (exists_files_ : gset string)
  : bool * gset string :=
  if decide (file ∈ exists_files_) then (false, exists_files_)
  else (true, {[file]} ∪ exists_files_).

(** [llvm::StringRef::substr(Start)]: the suffix from [Start], empty when
    [Start] is past the end. *)
Definition substr_from (s : string) (start : nat) : string :=
  String.substring start (String.length s - start) s.

(** The destination computed in [shouldProcess]:
    [outputPrefix % "/" % project->name % "/" % filename.substr(...) % ".html"]
    ([%] of stringbuilder.h concatenates). *)
Definition output_path (outputPrefix : string) (filename : string) (project : ProjectInfo)
  : string :=
  String.append outputPrefix (String.append "/" (String.append project.(name)
    (String.append "/" (String.append
       (substr_from filename (String.length project.(source_path))) ".html")))).

(** [ProjectManager::shouldProcess]; [project] is the (possibly null)
    pointer returned by [projectForFile]. *)
Definition shouldProcess (outputPrefix : string) (filename : string)
    (project : option ProjectInfo) (exists_files_ : gset string) : bool * gset string :=
  match project with
  | None => (false, exists_files_)
  | Some pr =>
      match pr.(type) with
      | External => (false, exists_files_)
      | _ => addFile_Locked (output_path outputPrefix filename pr) exists_files_
      end
  end.

(** [ProjectManager::shouldProcess0]: the same gates without claiming. *)
Definition shouldProcess0 (filename : string) (project : option ProjectInfo) : bool :=
  match project with
  | None => false
  | Some pr => match pr.(type) with External => false | _ => true end
  end.

(** One caller's request: a file and the project resolved for it. *)
Definition call := (string * option ProjectInfo)%type.

Definition shouldProcess_step (outputPrefix : string) (c : call) (st : gset string)
  : bool * gset string :=
  shouldProcess outputPrefix c.1 c.2 st.

(** The output path a call claims, if it reaches [addFile_Locked]. *)
Definition claimed_path (outputPrefix : string) (c : call) : option string :=
  match c.2 with
  | None => None
  | Some pr =>
      match pr.(type) with
      | External => None
      | _ => Some (output_path outputPrefix c.1 pr)
      end
  end.

End Guard.

Module ProcessedSet.

(** [ProcessedSet::try_insert] (main.cpp): [processed_.insert(s)] on the
    [std::set<std::string>] of the singleton [ProcessedSet::get()], under
    [mutex_]; the result is the [bool] of the insertion, true iff [s] was
    not in the set yet. *)
Definition try_insert (id : string) (processed : gset string) : bool * gset string :=
  if decide (id ∈ processed) then (false, processed)
  else (true, {[id]} ∪ processed).

(** The consumer created by [BrowserAction::CreateASTConsumer]: the Unit
    Processor instance for one input file. *)
Record BrowserASTConsumer := mkConsumer { consumer_file : string }.

(** [BrowserAction::CreateASTConsumer]: [nullptr] when the input file was
    already admitted, otherwise a fresh [BrowserASTConsumer]. *)
Definition CreateASTConsumer (InFile : string) (processed : gset string)
  : option BrowserASTConsumer * gset string :=
  let (ok, processed') := try_insert InFile processed in
  if ok then (Some (mkConsumer InFile), processed') else (None, processed').

End ProcessedSet.

Module Recovery.

(** [std::string]'s [operator<]: lexicographic by unsigned character code,
    a proper prefix being smaller. *)
Definition str_lt (a b : string) : bool := String.ltb a b.

(** [std::sort(AllFiles.begin(), AllFiles.end())]. Strings are totally
    ordered and equal strings are identical, so the sorted vector does not
    depend on the sorting algorithm; an insertion sort computes it. *)
Fixpoint insert_sorted (x : string) (l : list string) : list string :=
  match l with
  | [] => [x]
  | y :: l' => if String.leb x y then x :: l else y :: insert_sorted x l'
  end.

Fixpoint sort_strings (l : list string) : list string :=
  match l with
  | [] => []
  | x :: l' => insert_sorted x (sort_strings l')
  end.

(** [std::lower_bound(first, last, value)] as libstdc++ writes it:
    halve [len] while [len > 0], moving [first] past the middle when the
    middle element is less than [value]. [fuel] bounds the iterations
    ([len] strictly decreases). *)
Fixpoint lower_bound_loop (fuel : nat) (l : list string) (first len : nat) (value : string)
  : nat :=
  match fuel with
  | O => first
  | S fuel' =>
      if len =? 0 then first else
      let half := len / 2 in
      let middle := first + half in
      if str_lt (nth middle l "") value then
        lower_bound_loop fuel' l (middle + 1) (len - half - 1) value
      else lower_bound_loop fuel' l first half value
  end.

Definition lower_bound (l : list string) (value : string) : nat :=
  lower_bound_loop (List.length l) l 0 (List.length l) value.

(** main.cpp, NotInDB loop:
    [auto lower = std::lower_bound(AllFiles.cbegin(), AllFiles.cend(), file);
     if (lower == AllFiles.cend()) lower = AllFiles.cbegin();]
    The result is [None] only for an empty [AllFiles], where the source
    dereferences [cbegin()] of an empty vector. *)
Definition nearest_file (AllFiles : list string) (file : string) : option string :=
  let lower := lower_bound AllFiles file in
  let lower := if lower =? List.length AllFiles then 0 else lower in
  AllFiles !! lower.

(** [clang::tooling::CompileCommand]. *)
Record CompileCommand := mkCompileCommand {
  Directory : string;
  Filename : string;
  CommandLine : list string
}.

(** The compilation database, seen through [getCompileCommands]. *)
Definition Database := string -> list CompileCommand.

(** The lookup of the NotInDB loop: the file's own commands, else those of
    the nearest known file; the second component is [fileForCommands]. *)
Definition recover_commands (db : Database) (AllFiles : list string) (file : string)
  : list CompileCommand * string :=
  match db file with
  | [] =>
      match nearest_file AllFiles file with
      | Some lower => (db lower, lower)
      | None => ([], file)
      end
  | cmds => (cmds, file)
  end.

(** [std::replace(first, last, old_value, new_value)]: every element equal
    to [old_value] becomes [new_value]. *)
Definition replace (command : list string) (old_value new_value : string) : list string :=
  map (fun t => if String.eqb t old_value then new_value else t) command.

End Recovery.

Module JobBuilder.

(** [s[n] == c] for a position inside the string. *)
Definition char_is (s : string) (n : nat) (c : ascii) : bool :=
  match String.get n s with
  | Some c' => if ascii_dec c' c then true else false
  | None => false
  end.

(** The flags of the path-absolutization loop of [proceedCommand]. *)
Record LoopState := mkLoopState {
  previousIsDashI : bool;
  previousNeedsMacro : bool;
  hasNoStdInc : bool
}.

Definition loop_init : LoopState := mkLoopState false false false.

Section ProceedCommand.
(** [llvm::sys::fs::exists] on the real file system. *)
Variable exists_path : string -> bool.
(** [clang::tooling::getClangSyntaxOnlyAdjuster()] and
    [getClangStripOutputAdjuster()]: library code outside this repository. *)
Variable syntax_only_adjuster : list string -> string -> list string.
Variable strip_output_adjuster : list string -> string -> list string.

(** One iteration of [for (std::string &A : command)]: the new value of
    [A] and of the three flags. *)
Definition normalize_token (Directory : string) (st : LoopState) (A : string)
  : string * LoopState :=
  let '(mkLoopState dashI macro nostd) := st in
  if dashI && negb (String.eqb A "") && negb (char_is A 0 "/") then
    (String.append Directory (String.append "/" A), mkLoopState false macro nostd)
  else if String.eqb A "-I" then (A, mkLoopState true macro nostd)
  else if String.eqb A "-nostdinc" || String.eqb A "-nostdinc++" then
    (A, mkLoopState dashI macro true)
  else if String.eqb A "-U" || String.eqb A "-D" then (A, mkLoopState dashI true nostd)
  else if macro then (A, mkLoopState dashI false nostd)
  else
    let st' := mkLoopState false macro nostd in
    if String.eqb A "" then (A, st')
    else if String.prefix "-I" A && negb (char_is A 2 "/") then
      (String.append "-I" (String.append Directory (String.append "/"
         (String.substring 2 (String.length A - 2) A))), st')
    else if char_is A 0 "-" || char_is A 0 "/" then (A, st')
    else
      let PossiblePath := String.append Directory (String.append "/" A) in
      if exists_path PossiblePath then (PossiblePath, st') else (A, st').

Fixpoint normalize_loop (Directory : string) (st : LoopState) (command : list string)
  : list string * LoopState :=
  match command with
  | [] => ([], st)
  | A :: rest =>
      let (A', st') := normalize_token Directory st A in
      let (rest', st'') := normalize_loop Directory st' rest in
      (A' :: rest', st'')
  end.

(** The command line [proceedCommand] hands to [ToolInvocation] (non-Windows
    build: [-isystem]). *)
Definition build_command (command : list string) (Directory file : string) : list string :=
  let (command, st) := normalize_loop Directory loop_init command in
  let command := syntax_only_adjuster command file in
  let command := strip_output_adjuster command file in
  let command :=
    if negb st.(hasNoStdInc) then command ++ ["-isystem"; "/builtins"] else command in
  command ++ ["-Qunused-arguments"; "-Wno-unknown-warning-option"].

End ProceedCommand.

End JobBuilder.

Module Dispatcher.
Import Registry Guard Recovery.

(** [llvm::StringRef::endswith]. *)
Definition ends_with (suffix s : string) : bool :=
  String.eqb (String.substring (String.length s - String.length suffix)
                (String.length suffix) s) suffix.

(** A page written by [Generator::generate] without annotations. *)
Record Page := mkPage {
  page_name : string;
  page_footer : string;
  page_disclaimer : string
}.

(** What the NotInDB loop touches: the manager's [exists_files_], the jobs
    handed to [thread_pool.Schedule], the plain pages and [otherIndex]. *)
Record RunState := mkRunState {
  exists_files : gset string;
  scheduled : list (list string * string);
  pages : list Page;
  otherIndex : list string
}.

Definition set_exists_files (s : RunState) (ef : gset string) : RunState :=
  mkRunState ef s.(scheduled) s.(pages) s.(otherIndex).

Definition schedule (s : RunState) (job : list string * string) : RunState :=
  mkRunState s.(exists_files) (s.(scheduled) ++ [job]) s.(pages) s.(otherIndex).

Definition emit_page (s : RunState) (pg : Page) : RunState :=
  mkRunState s.(exists_files) s.(scheduled) (s.(pages) ++ [pg])
    (s.(otherIndex) ++ [pg.(page_name)]).

Definition disclaimer : string :=
  "Warning: This file is not a C or C++ file. It does not have highlighting.".

(** The footer of a plain page; [date] is the [strftime] of the current day. *)
Definition footer (date : string) (projectinfo : ProjectInfo) : string :=
  let f := String.append "Generated on <em>" (String.append date
             (String.append "</em>" (String.append " from project "
               (String.append projectinfo.(name) "</a>")))) in
  if String.eqb projectinfo.(revision) "" then f
  else String.append f (String.append " revision <em>"
                         (String.append projectinfo.(revision) "</em>")).

(** The command of a recovered job, after the filename substitution and the
    ".qdoc" adjustments. *)
Definition recovered_command (command : list string) (fileForCommands it file : string)
  : list string :=
  let command := replace command fileForCommands it in
  if ends_with ".qdoc" file then
    (take 1 command ++ ["-xc++"] ++ drop 1 command) ++
      ["-include"; String.append (String.substring 0 (String.length file - 5) file) ".h"]
  else command.

(** One iteration of [for (const auto &it : NotInDB)] in [main]. [it] is a
    canonical absolute path, so [getAbsolutePath(it)] is [it]. [readable]
    is the success of [llvm::MemoryBuffer::getFile]. [success] is declared
    false and is not assigned on any path of the loop body; the opening of
    [otherIndex] is taken to succeed. *)
Definition notInDB_step (outputPrefix : string) (projects : list ProjectInfo)
    (db : Database) (AllFiles : list string) (IsProcessingAllDirectory : bool)
    (readable : string -> bool) (date : string) (it : string) (s : RunState) : RunState :=
  let file := it in
  match projectForFile projects file with
  | None => s
  | Some idx =>
      let (ok, ef) := shouldProcess outputPrefix file (projects !! idx) s.(exists_files) in
      let s := set_exists_files s ef in
      if negb ok then s else
      let (compileCommandsForFile, fileForCommands) := recover_commands db AllFiles file in
      let s :=
        match compileCommandsForFile with
        | [] => s
        | cc :: _ => schedule s (recovered_command cc.(CommandLine) fileForCommands it file, file)
        end in
      let success := false in
      if negb success && negb IsProcessingAllDirectory then
        match projectForFile projects file with
        | None => s
        | Some idx' =>
            match projects !! idx' with
            | None => s
            | Some projectinfo =>
                let (ok2, ef2) := shouldProcess outputPrefix file (Some projectinfo)
                                    s.(exists_files) in
                let s := set_exists_files s ef2 in
                if negb ok2 then s else
                if negb (readable file) then s else
                let fn := String.append projectinfo.(name) (String.append "/"
                            (substr_from file (String.length projectinfo.(source_path)))) in
                emit_page s (mkPage fn (footer date projectinfo) disclaimer)
            end
        end
      else s
  end.

(** The whole NotInDB loop. *)
Definition notInDB_loop (outputPrefix : string) (projects : list ProjectInfo)
    (db : Database) (AllFiles : list string) (IsProcessingAllDirectory : bool)
    (readable : string -> bool) (date : string) (NotInDB : list string) (s : RunState)
  : RunState :=
  fold_left (fun s it => notInDB_step outputPrefix projects db AllFiles
                           IsProcessingAllDirectory readable date it s) NotInDB s.

End Dispatcher.

Module Options.
Import Registry Guard.

(** [std::string::find(c, pos)]: the first index at or after [pos] holding
    [c]; [None] is [std::string::npos]. *)
Fixpoint find_from (c : ascii) (s : string) (i : nat) : option nat :=
  match s with
  | EmptyString => None
  | String a s' => if ascii_dec a c then Some i else find_from c s' (S i)
  end.

Definition find_char (s : string) (c : ascii) (pos : nat) : option nat :=
  find_from c (substr_from s pos) pos.

(** [s.substr(colonPos + 1, secondColonPos - colonPos - 1)]: with
    [secondColonPos == npos] the count exceeds what is left, and [substr]
    keeps the whole rest. *)
Definition between_colons (s : string) (colonPos : nat) (secondColonPos : option nat)
  : string :=
  match secondColonPos with
  | Some j => String.substring (colonPos + 1) (j - colonPos - 1) s
  | None => substr_from s (colonPos + 1)
  end.

(** The parsing of one [-p <project>:<path>[:<revision>]] option in [main].
    [find] returns an index below [size()] or [npos], so the test
    [colonPos >= s.size()] is the [npos] case. The three-string
    [ProjectInfo] constructor sets the revision and leaves the type
    [Normal]. [None] is the "fail to parse project option" branch. *)
Definition parse_project_option (s : string) : option ProjectInfo :=
  match find_char s ":" 0 with
  | None => None
  | Some colonPos =>
      let secondColonPos := find_char s ":" (colonPos + 1) in
      let rev := match secondColonPos with
                 | Some j => substr_from s (j + 1)
                 | None => ""
                 end in
      Some (mkProjectInfo (String.substring 0 colonPos s)
              (between_colons s colonPos secondColonPos) rev "" Normal)
  end.

(** The parsing of one [-e <project>:<path>:<url>] option: both colons are
    required; the project is [External] and gets the URL as
    [external_root_url]. *)
Definition parse_external_option (s : string) : option ProjectInfo :=
  match find_char s ":" 0 with
  | None => None
  | Some colonPos =>
      match find_char s ":" (colonPos + 1) with
      | None => None
      | Some secondColonPos =>
          Some (mkProjectInfo (String.substring 0 colonPos s)
                  (between_colons s colonPos (Some secondColonPos)) ""
                  (substr_from s (secondColonPos + 1)) External)
      end
  end.

Section Register.
Variable canonicalize : string -> string.


End Register.

End Options.

Module SourceSelection.
Import Registry Recovery Dispatcher.

(** [while (DirName.endswith("/")) DirName.pop_back();] Each iteration
    removes one character, so [length DirName] iterations suffice. *)
Fixpoint strip_loop (fuel : nat) (DirName : string) : string :=
  match fuel with
  | O => DirName
  | S fuel' =>
      if ends_with "/" DirName
      then strip_loop fuel' (String.substring 0 (String.length DirName - 1) DirName)
      else DirName
  end.

Definition strip_trailing_slashes (DirName : string) : string :=
  strip_loop (String.length DirName) DirName.

(** A directory entry as [llvm::sys::fs::recursive_directory_iterator]
    sees it: its file name and, for a directory, its entries. *)
#[warnings="-register-all"]
Inductive Entry := entry (entry_name : string) (entry_children : list Entry).

(** The loop that fills [DirContents]: a depth-first, pre-order walk. An
    entry whose file name starts with "." is skipped and [no_push()] keeps
    the iterator out of it; every other entry is pushed and, if it is a
    directory, entered. *)
Fixpoint walk_entry (dir : string) (e : Entry) {struct e} : list string :=
  let '(entry n cs) := e in
  let p := String.append dir (String.append "/" n) in
  if String.prefix "." n then []
  else p :: (fix walk_children (es : list Entry) : list string :=
               match es with
               | [] => []
               | e' :: rest => walk_entry p e' ++ walk_children rest
               end) cs.

Definition walk (dir : string) (es : list Entry) : list string :=
  flat_map (walk_entry dir) es.

(** How [main] ends after choosing its sources: [EXIT_FAILURE], or on to the
    processing loops with the sources, the directory-mode flag and the
    registry. *)
Inductive Outcome :=
| ExitFailure
| Proceed (Sources : list string) (IsProcessingAllDirectory : bool)
    (projects : list ProjectInfo).

Section Select.
(** [llvm::sys::path::native], [llvm::sys::fs::is_directory],
    [llvm::sys::path::filename], [canonicalize] (filesystem.h), and the
    directory tree under a path ([None] when the iteration sets [EC]). *)
Variable native : string -> string.
Variable is_directory : string -> bool.
Variable path_filename : string -> string.
Variable canonicalize : string -> string.
Variable dir_tree : string -> option (list Entry).

(** The two checks after the choice of [Sources]. *)
Definition check_sources (ProjectPaths Sources : list string) (IsProcessingAllDirectory : bool)
    (projects : list ProjectInfo) : Outcome :=
  match Sources with
  | [] => ExitFailure
  | _ =>
      match ProjectPaths with
      | [] => if IsProcessingAllDirectory then Proceed Sources true projects else ExitFailure
      | _ => Proceed Sources IsProcessingAllDirectory projects
      end
  end.

(** [main] from [std::sort(AllFiles...)] to the check for a project
    option, once the compilation database is loaded. *)
Definition select_sources (SourcePaths AllFiles : list string) (ProcessAllSources : bool)
    (ProjectPaths : list string) (projects : list ProjectInfo) : Outcome :=
  let AllFiles := sort_strings AllFiles in
  let Sources := SourcePaths in
  if (List.length Sources =? 0) && ProcessAllSources then
    check_sources ProjectPaths AllFiles false projects
  else if ProcessAllSources then ExitFailure
  else
    match Sources with
    | [front] =>
        if is_directory front then
          let DirName := strip_trailing_slashes (native front) in
          match dir_tree DirName with
          | None => ExitFailure
          | Some es =>
              let DirContents := walk DirName es in
              let projects :=
                match ProjectPaths with
                | [] => (addProject canonicalize projects
                           (mkProjectInfo (path_filename DirName) DirName "" "" Normal)).2
                | _ => projects
                end in
              check_sources ProjectPaths DirContents true projects
          end
        else check_sources ProjectPaths Sources false projects
    | _ => check_sources ProjectPaths Sources false projects
    end.
End Select.

End SourceSelection.

Module SourcesLoop.
Import Registry Guard Recovery.

(** [enum class DatabaseType]. *)
Inductive DatabaseType := InDatabase | NotInDatabase | ProcessFullDirectory.

(** A job handed to [thread_pool.Schedule]: the arguments of its
    [proceedCommand] call. *)
Record Job := mkJob {
  job_command : list string;
  job_dir : string;
  job_file : string;
  job_type : DatabaseType
}.

(** [INT_MAX] for the 32-bit [int] of [Progress]. *)
Definition INT_MAX : N := 2147483647%N.

(** [100 * Progress / Sources.size()]: the product is computed in [int]
    and overflows (undefined behaviour, [None]) once it exceeds [INT_MAX];
    otherwise it is converted to [size_t] and divided by the size. *)
Definition percent (Progress total : nat) : option nat :=
  if (100 * N.of_nat Progress <=? INT_MAX)%N then Some (100 * Progress / total) else None.

(** The variables of [main] the Sources loop updates, and the percentages
    it prints. [Progress] is an [int]; as a [nat] it is exact while it stays
    below [2^31], which the loop guarantees for fewer than [2^31] sources. *)
Record SourcesState := mkSourcesState {
  Progress : nat;
  jobs : list Job;
  NotInDB : list string;
  percents : list (option nat)
}.

Definition sources_init : SourcesState := mkSourcesState 0 [] [] [].

Section Sources.
(** [clang::tooling::getAbsolutePath], [canonicalize] (filesystem.h) and
    [llvm::sys::path::extension]. *)
Variable getAbsolutePath : string -> string.
Variable canonicalize : string -> string.
Variable extension : string -> string.

(** [llvm::StringSwitch<bool>(extension(filename)).Cases(".h", ".H", ".hh", ".hpp", true)]. *)
Definition isHeader (filename : string) : bool :=
  let e := extension filename in
  String.eqb e ".h" || String.eqb e ".H" || String.eqb e ".hh" || String.eqb e ".hpp".

(** One iteration of [for (const auto &it : Sources)]; [total] is
    [Sources.size()]. *)
Definition sources_step (projects : list ProjectInfo) (db : Database)
    (IsProcessingAllDirectory : bool) (total : nat) (s : SourcesState) (it : string)
  : SourcesState :=
  let file := getAbsolutePath it in
  let s := mkSourcesState (S s.(Progress)) s.(jobs) s.(NotInDB) s.(percents) in
  if String.eqb it "" || String.eqb it "-" then s else
  let filename := canonicalize file in
  match projectForFile projects filename with
  | None => s
  | Some idx =>
      if negb (shouldProcess0 filename (projects !! idx)) then s else
      let compileCommandsForFile := db file in
      match compileCommandsForFile, isHeader filename with
      | cc :: _, false =>
          let tp := if IsProcessingAllDirectory then ProcessFullDirectory else InDatabase in
          mkSourcesState s.(Progress)
            (s.(jobs) ++ [mkJob cc.(CommandLine) cc.(Directory) file tp]) s.(NotInDB)
            (s.(percents) ++ [percent s.(Progress) total])
      | _, _ =>
          mkSourcesState (s.(Progress) - 1) s.(jobs) (s.(NotInDB) ++ [filename]) s.(percents)
      end
  end.

Definition sources_loop (projects : list ProjectInfo) (db : Database)
    (IsProcessingAllDirectory : bool) (Sources : list string) (s : SourcesState)
  : SourcesState :=
  fold_left (sources_step projects db IsProcessingAllDirectory (List.length Sources))
    Sources s.
End Sources.

End SourcesLoop.

Module Diagnostics.

(** [clang::DiagnosticsEngine::Level]. *)
Inductive Level := Ignored | Note | Remark | Warning | Error | Fatal.

(** A [clang::PresumedLoc]: file name and line, [None] when invalid. *)
Definition PresumedLoc := option (string * nat).

(** [locationToString]. *)
Definition locationToString (fixed : PresumedLoc) : string :=
  match fixed with
  | None => "???"
  | Some (f, line) => String.append f (String.append ":" (pretty line))
  end.

(** [llvm::StringRef::contains]. *)
Definition contains (s sub : string) : bool :=
  match String.index 0 sub s with Some _ => true | None => false end.

(** [BrowserDiagnosticClient::isImmintrinDotH]; the file name of an invalid
    location is taken as empty. *)
Definition isImmintrinDotH (loc : PresumedLoc) : bool :=
  match loc with
  | None => false
  | Some (f, _) => contains f "immintrin.h"
  end.

(** What [HandleDiagnostic] does: the text written to [std::cerr] and the
    [reportDiagnostic] call (message and class), if any. *)
Record Handled := mkHandled {
  cerr_text : string;
  reported : option (string * string)
}.

Definition newline : string := String (ascii_of_nat 10) EmptyString.

(** [diag.c_str()] read as a C string: the text up to its first NUL. *)
Fixpoint c_str (s : string) : string :=
  match s with
  | EmptyString => EmptyString
  | String c s' => if Ascii.eqb c (ascii_of_nat 0) then EmptyString else String c (c_str s')
  end.

Definition HandleDiagnostic (DiagLevel : Level) (loc : PresumedLoc) (diag : string)
  : Handled :=
  let error_line := String.append "Error: " (String.append (locationToString loc)
                      (String.append ": " (String.append (c_str diag) newline))) in
  match DiagLevel with
  | Fatal =>
      if isImmintrinDotH loc then mkHandled "" None
      else mkHandled (String.append "FATAL " error_line) (Some (c_str diag, "error"))
  | Error => mkHandled error_line (Some (c_str diag, "error"))
  | Warning => mkHandled "" (Some (c_str diag, "warning"))
  | _ => mkHandled "" None
  end.

End Diagnostics.

Module RefFiles.

(** A [RefFile] object; [ref_id] stands for its address, which the
    node-based [std::unordered_map] keeps for the object's lifetime. *)
Record RefFile := mkRefFile { ref_id : nat; ref_path : string }.

(** [ref_files] (or [func_index_files]) and the next fresh address. *)
Record RefStore := mkRefStore { ref_files : gmap string RefFile; next_id : nat }.

Definition ref_store_init : RefStore := mkRefStore ∅ 0.

(** [ProjectManager::GetRefFile] and [GetFuncIndexFile]:
    [try_emplace(s, s)] under the manager's mutex, returning the element
    for [s], constructed from [s] if it was absent. *)
Definition GetRefFile (s : string) (st : RefStore) : RefFile * RefStore :=
  match st.(ref_files) !! s with
  | Some r => (r, st)
  | None =>
      let r := mkRefFile st.(next_id) s in
      (r, mkRefStore (<[s := r]> st.(ref_files)) (S st.(next_id)))
  end.

End RefFiles.

(** * Notions used by the statements

    Predicates that state what the specification says, and the concrete
    inputs the examples run on. *)

Module Notions.

(** A project matches a file when its source path is a prefix of it. *)
Definition matches (q : ProjectInfo) (p : string) : Prop :=
  String.prefix q.(source_path) p = true.

(** [j] is the last index whose source path is a longest matching prefix. *)
Definition longest_latest (ps : list ProjectInfo) (p : string) (j : nat) : Prop :=
  exists pj, ps !! j = Some pj /\ matches pj p /\
    (forall k q, ps !! k = Some q -> matches q p ->
       String.length q.(source_path) <= String.length pj.(source_path)) /\
    (forall k q, j < k -> ps !! k = Some q -> matches q p ->
       String.length q.(source_path) < String.length pj.(source_path)).

Section Claims.
Context {A : Type}.
Variable key : A -> option string.

(** Call [c] claims the output path [fn]. *)
Definition claims (fn : string) (c : A) : bool := bool_decide (key c = Some fn).

End Claims.

(** Sortedness of the known-file list, pairwise and by index. *)
Definition sle (a b : string) : Prop := String.leb a b = true.

Definition sorted_idx (l : list string) : Prop :=
  forall i j, i <= j -> j < List.length l -> String.leb (nth i l "") (nth j l "") = true.

(** The number of leading elements less than [x]: on a sorted list, the
    index of the first element not less than [x]. *)
Fixpoint count_less (l : list string) (x : string) : nat :=
  match l with
  | [] => 0
  | s :: l' => if Recovery.str_lt s x then S (count_less l' x) else 0
  end.

(** A run of [k] slashes. *)
Fixpoint slashes (k : nat) : string :=
  match k with
  | O => EmptyString
  | S k' => String "/" (slashes k')
  end.

(** The paths below [dir] that a directory tree [es] holds along names
    that do not start with ".". *)
Inductive visible : string -> list SourceSelection.Entry -> string -> Prop :=
| vis_here dir es n cs :
    In (SourceSelection.entry n cs) es -> String.prefix "." n = false ->
    visible dir es (dir +:+ "/" +:+ n)
| vis_below dir es n cs p :
    In (SourceSelection.entry n cs) es -> String.prefix "." n = false ->
    visible (dir +:+ "/" +:+ n) cs p -> visible dir es p.

(** Induction over directory trees, with a hypothesis for every entry of a
    directory. *)
Fixpoint Entry_ind' (P : SourceSelection.Entry -> Prop)
    (H : forall n cs, Forall P cs -> P (SourceSelection.entry n cs))
    (e : SourceSelection.Entry) {struct e} : P e :=
  match e with
  | SourceSelection.entry n cs =>
      H n cs ((fix go (l : list SourceSelection.Entry) : Forall P l :=
                 match l with
                 | [] => @List.Forall_nil _ P
                 | x :: l' => @List.Forall_cons _ P x l' (Entry_ind' P H x) (go l')
                 end) cs)
  end.

(** A store of [RefFile]s is well formed when each element is keyed by its
    own path, its address was handed out already, and no two keys share an
    address. *)
Definition ref_store_wf (st : RefFiles.RefStore) : Prop :=
  (forall k r, st.(RefFiles.ref_files) !! k = Some r ->
     r.(RefFiles.ref_path) = k /\ r.(RefFiles.ref_id) < st.(RefFiles.next_id)) /\
  (forall k1 k2 r1 r2, st.(RefFiles.ref_files) !! k1 = Some r1 ->
     st.(RefFiles.ref_files) !! k2 = Some r2 -> r1.(RefFiles.ref_id) = r2.(RefFiles.ref_id) ->
     k1 = k2).




End Notions.

Module Fixtures.
Import Guard Recovery Dispatcher.

Definition proj (n sp : string) : ProjectInfo := mkProjectInfo n sp "" "" Normal.
Definition app_proj : ProjectInfo := proj "app" "/src/app/".
Definition base_proj : ProjectInfo := proj "base" "/src/".
Definition app2_proj : ProjectInfo := proj "app2" "/src/app/".
Definition app_normal : ProjectInfo := proj "app" "/src/app/".
Definition race_calls : list call :=
  [("/src/app/main.cc", Some app_normal); ("/src/app/util.cc", Some app_normal);
   ("/src/app/main.cc", Some app_normal)].
Definition id_adj (c : list string) (_ : string) : list string := c.
Definition failing_projects : list ProjectInfo := [proj "app" "/src/app/"].
Definition no_commands : Database := fun _ => [].
Definition empty_run : RunState := mkRunState ∅ [] [] [].
Definition ext_of (f : string) : string :=
  if String.eqb f "/src/app/a.h" then ".h" else ".cc".
Definition z_db : Database := fun f =>
  if String.eqb f "/src/app/z.cc"
  then [mkCompileCommand "/build" "/src/app/z.cc"
          ["clang++"; "-c"; "/src/app/z.cc"; "-MF/src/app/z.cc.d"]]
  else [].
End Fixtures.

Import Notions Fixtures.

(** * Properties *)

Module RegistryExamples.

Example projectForFile_scenario1 :
  Registry.projectForFile [proj "app" "/src/app/"] "/src/app/main.cc" = Some 0
  /\ Registry.projectForFile [proj "app" "/src/app/"] "/src/other/x.cc" = None.
Proof. split; reflexivity. Qed.

Example projectForFile_scenario2 :
  Registry.projectForFile [proj "base" "/src/"; proj "app" "/src/app/"] "/src/app/main.cc" = Some 1
  /\ Registry.projectForFile [proj "base" "/src/"; proj "app" "/src/app/"] "/src/lib.cc" = Some 0.
Proof. split; reflexivity. Qed.

End RegistryExamples.

Module RegistryFacts.
Import Registry.

Lemma projectForFile_loop_spec (p : string) (ps : list ProjectInfo) :
  forall i ml res,
  (projectForFile_loop ps i p ml res = res /\
     forall k q, ps !! k = Some q -> matches q p -> String.length q.(source_path) < ml) \/
  (exists j pj, projectForFile_loop ps i p ml res = Some (i + j) /\
     ps !! j = Some pj /\ matches pj p /\ ml <= String.length pj.(source_path) /\
     (forall k q, ps !! k = Some q -> matches q p ->
        String.length q.(source_path) <= String.length pj.(source_path)) /\
     (forall k q, j < k -> ps !! k = Some q -> matches q p ->
        String.length q.(source_path) < String.length pj.(source_path))).
Proof.
  unfold matches.
  induction ps as [|it rest IH]; intros i ml res; simpl.
  - left. split; [reflexivity|]. intros k q Hk. rewrite lookup_nil in Hk. discriminate.
  - destruct (Nat.ltb_spec (String.length (source_path it)) ml) as [Hlt|Hge].
    + destruct (IH (S i) ml res) as [[Hr Hall]|(j & pj & Hr & Hj & Hm & Hml & Hmax & Hlast)].
      * left. split; [exact Hr|]. intros [|k] q Hk Hq; simpl in Hk.
        -- injection Hk as <-. exact Hlt.
        -- eauto.
      * right. exists (S j), pj. repeat split; auto.
        -- rewrite Hr. f_equal. lia.
        -- intros [|k] q Hk Hq; simpl in Hk; [injection Hk as <-; lia | eauto].
        -- intros [|k] q Hjk Hk Hq; [lia|]. simpl in Hk. apply (Hlast k q); auto. lia.
    + destruct (String.prefix (source_path it) p) eqn:Hpre.
      * destruct (IH (S i) (String.length (source_path it)) (Some i))
          as [[Hr Hall]|(j & pj & Hr & Hj & Hm & Hml & Hmax & Hlast)].
        -- right. exists 0, it. rewrite Nat.add_0_r. repeat split; auto.
           ++ intros [|k] q Hk Hq; simpl in Hk; [injection Hk as <-; lia|].
              specialize (Hall k q Hk Hq). lia.
           ++ intros [|k] q Hjk Hk Hq; [lia|]. simpl in Hk. eauto.
        -- right. exists (S j), pj. repeat split; auto.
           ++ rewrite Hr. f_equal. lia.
           ++ lia.
           ++ intros [|k] q Hk Hq; simpl in Hk; [injection Hk as <-; lia | eauto].
           ++ intros [|k] q Hjk Hk Hq; [lia|]. simpl in Hk. apply (Hlast k q); auto. lia.
      * destruct (IH (S i) ml res) as [[Hr Hall]|(j & pj & Hr & Hj & Hm & Hml & Hmax & Hlast)].
        -- left. split; [exact Hr|]. intros [|k] q Hk Hq; simpl in Hk.
           ++ injection Hk as <-. congruence.
           ++ eauto.
        -- right. exists (S j), pj. repeat split; auto.
           ++ rewrite Hr. f_equal. lia.
           ++ intros [|k] q Hk Hq; simpl in Hk; [injection Hk as <-; congruence | eauto].
           ++ intros [|k] q Hjk Hk Hq; [lia|]. simpl in Hk. apply (Hlast k q); auto. lia.
Qed.

Lemma projectForFile_cases (ps : list ProjectInfo) (p : string) :
  (projectForFile ps p = None /\ forall k q, ps !! k = Some q -> ~ matches q p) \/
  (exists j, projectForFile ps p = Some j /\ longest_latest ps p j).
Proof.
  unfold projectForFile.
  destruct (projectForFile_loop_spec p ps 0 0 None)
    as [[Hr Hall]|(j & pj & Hr & Hj & Hm & Hml & Hmax & Hlast)].
  - left. split; [exact Hr|]. intros k q Hk Hq. specialize (Hall k q Hk Hq). lia.
  - right. exists j. split; [exact Hr|]. exists pj. auto.
Qed.

Lemma longest_latest_unique (ps : list ProjectInfo) (p : string) (j1 j2 : nat) :
  longest_latest ps p j1 -> longest_latest ps p j2 -> j1 = j2.
Proof.
  intros (p1 & H1 & Hm1 & Hmax1 & Hlast1) (p2 & H2 & Hm2 & Hmax2 & Hlast2).
  destruct (Nat.lt_trichotomy j1 j2) as [Hlt|[Heq|Hgt]]; [|exact Heq|].
  - specialize (Hlast1 j2 p2 Hlt H2 Hm2). specialize (Hmax2 j1 p1 H1 Hm1). lia.
  - specialize (Hlast2 j1 p1 Hgt H1 Hm1). specialize (Hmax1 j2 p2 H2 Hm2). lia.
Qed.

Lemma projectForFile_longest_latest (ps : list ProjectInfo) (p : string) (j : nat) :
  projectForFile ps p = Some j <-> longest_latest ps p j.
Proof.
  split.
  - intros Hr. destruct (projectForFile_cases ps p) as [[Hn _]|(j' & Hr' & Hl)];
      congruence.
  - intros Hl. destruct (projectForFile_cases ps p) as [[Hn Hall]|(j' & Hr' & Hl')].
    + destruct Hl as (pj & Hj & Hm & _). exfalso. exact (Hall j pj Hj Hm).
    + rewrite Hr'. f_equal. exact (longest_latest_unique ps p j' j Hl' Hl).
Qed.

End RegistryFacts.

Module RegistryClaims.
Import Registry RegistryFacts.

Lemma last_char_slash (s : string) :
  s <> "" -> last_char s = Some "/"%char -> exists pre, s = String.append pre "/".
Proof.
  unfold last_char. induction s as [|c s IH]; intros Hne Hl; [congruence|].
  destruct s as [|c' s'].
  - simpl in Hl. injection Hl as ->. exists "". reflexivity.
  - assert (Hget : String.get (String.length (String c (String c' s')) - 1) (String c (String c' s'))
                   = String.get (String.length (String c' s') - 1) (String c' s')).
    { simpl. rewrite Nat.sub_0_r. reflexivity. }
    rewrite Hget in Hl. destruct (IH ltac:(discriminate) Hl) as [pre Hpre].
    exists (String c pre). rewrite Hpre. reflexivity.
Qed.

Lemma append_slash_nonempty (pre : string) : String.append pre "/" <> "".
Proof. destruct pre; discriminate. Qed.

(** C1: [projectForFile] returns the project whose [source_path] is a
    longest prefix of the file path, none when no [source_path] is a prefix,
    and appending a project whose [source_path] is a shorter matching prefix
    leaves the result unchanged. *)
Theorem projectForFile_longest_prefix (projects : list ProjectInfo) (p : string) :
  (projectForFile projects p = None <->
     forall k q, projects !! k = Some q -> String.prefix q.(source_path) p = false) /\
  (forall j, projectForFile projects p = Some j ->
     exists pj, projects !! j = Some pj /\ String.prefix pj.(source_path) p = true /\
       forall k q, projects !! k = Some q -> String.prefix q.(source_path) p = true ->
         String.length q.(source_path) <= String.length pj.(source_path)) /\
  (forall j pj q, projectForFile projects p = Some j -> projects !! j = Some pj ->
     String.prefix q.(source_path) p = true ->
     String.length q.(source_path) < String.length pj.(source_path) ->
     projectForFile (projects ++ [q]) p = Some j).
Proof.
  split; [|split].
  - split.
    + intros Hn k q Hk. destruct (String.prefix (source_path q) p) eqn:Hq; [|reflexivity].
      exfalso. destruct (projectForFile_cases projects p) as [[_ Hall]|(j & Hr & _)].
      * exact (Hall k q Hk Hq).
      * congruence.
    + intros Hall. destruct (projectForFile_cases projects p) as [[Hn _]|(j & Hr & Hl)];
        [exact Hn|].
      destruct Hl as (pj & Hj & Hm & _). unfold matches in Hm.
      rewrite (Hall j pj Hj) in Hm. discriminate.
  - intros j Hr. apply projectForFile_longest_latest in Hr.
    destruct Hr as (pj & Hj & Hm & Hmax & _). exists pj. auto.
  - intros j pj q Hr Hj Hq Hlen.
    apply projectForFile_longest_latest in Hr.
    apply projectForFile_longest_latest.
    destruct Hr as (pj' & Hj' & Hm & Hmax & Hlast).
    rewrite Hj in Hj'. injection Hj' as <-.
    assert (Hlt : j < List.length projects) by (apply lookup_lt_is_Some; eauto).
    assert (Hlk : forall k x, (projects ++ [q]) !! k = Some x ->
              projects !! k = Some x \/ (k = List.length projects /\ x = q)).
    { intros k x Hk. destruct (decide (k < List.length projects)) as [Hkl|Hkl].
      - left. rewrite lookup_app_l in Hk by lia. exact Hk.
      - right. rewrite lookup_app_r in Hk by lia.
        destruct (k - List.length projects) as [|n] eqn:E; simpl in Hk.
        + injection Hk as <-. split; [lia|reflexivity].
        + rewrite lookup_nil in Hk. discriminate. }
    exists pj. repeat split.
    + rewrite lookup_app_l by lia. exact Hj.
    + exact Hm.
    + intros k x Hk Hx. destruct (Hlk k x Hk) as [Hk'|[_ ->]]; [eauto|lia].
    + intros k x Hjk Hk Hx. destruct (Hlk k x Hk) as [Hk'|[_ ->]]; [eauto|lia].
Qed.


Lemma projectForFile_longest_prefix_witness :
  projectForFile [app_proj] "/src/app/main.cc" = Some 0 /\
  projectForFile ([app_proj] ++ [base_proj]) "/src/app/main.cc" = Some 0.
Proof.
  split; [reflexivity|].
  apply (proj2 (proj2 (projectForFile_longest_prefix [app_proj] "/src/app/main.cc"))
           0 app_proj base_proj); [reflexivity|reflexivity|reflexivity|simpl; lia].
Defined.

(** C10: among registered projects whose [source_path]s are equally long
    longest matching prefixes of a path, [projectForFile] returns the one
    registered last. *)
Theorem projectForFile_equal_length_latest (projects : list ProjectInfo) (p : string)
    (i k : nat) (a b : ProjectInfo) :
  i < k -> projects !! i = Some a -> projects !! k = Some b ->
  String.prefix a.(source_path) p = true -> String.prefix b.(source_path) p = true ->
  String.length a.(source_path) = String.length b.(source_path) ->
  (forall m q, projects !! m = Some q -> String.prefix q.(source_path) p = true ->
     String.length q.(source_path) <= String.length a.(source_path)) ->
  exists j pj, projectForFile projects p = Some j /\ projects !! j = Some pj /\
    String.prefix pj.(source_path) p = true /\
    String.length pj.(source_path) = String.length a.(source_path) /\
    k <= j /\
    forall m q, projects !! m = Some q -> String.prefix q.(source_path) p = true ->
      String.length q.(source_path) = String.length a.(source_path) -> m <= j.
Proof.
  intros Hik Ha Hb Hpa Hpb Hab Hmax.
  destruct (projectForFile_cases projects p) as [[_ Hall]|(j & Hr & Hl)].
  - exfalso. exact (Hall i a Ha Hpa).
  - destruct Hl as (pj & Hj & Hm & Hmaxj & Hlast).
    assert (Hle1 := Hmaxj i a Ha Hpa). assert (Hle2 := Hmax j pj Hj Hm).
    exists j, pj. repeat split; auto; [lia| |].
    + destruct (Nat.le_gt_cases k j) as [H|H]; [exact H|].
      specialize (Hlast k b H Hb Hpb). lia.
    + intros m q Hq Hpq Hlq. destruct (Nat.le_gt_cases m j) as [H|H]; [exact H|].
      specialize (Hlast m q H Hq Hpq). lia.
Qed.

Lemma projectForFile_equal_length_latest_witness :
  exists j pj, projectForFile [base_proj; app_proj; app2_proj] "/src/app/main.cc" = Some j /\
    [base_proj; app_proj; app2_proj] !! j = Some pj /\
    String.prefix pj.(source_path) "/src/app/main.cc" = true /\
    String.length pj.(source_path) = String.length app_proj.(source_path) /\
    2 <= j /\
    forall m q, [base_proj; app_proj; app2_proj] !! m = Some q ->
      String.prefix q.(source_path) "/src/app/main.cc" = true ->
      String.length q.(source_path) = String.length app_proj.(source_path) -> m <= j.
Proof.
  apply (projectForFile_equal_length_latest _ _ 1 2 app_proj app2_proj);
    [lia|reflexivity|reflexivity|reflexivity|reflexivity|reflexivity|].
  intros m q Hq _. destruct m as [|[|[|m]]]; simpl in Hq; try discriminate;
    injection Hq as <-; simpl; lia.
Defined.

(** C9: [addProject] returns false exactly when [source_path] is empty
    before or after canonicalization, and then leaves the registry alone;
    on success the stored [source_path] is non-empty and ends with '/', and
    the project is appended to the registry. *)
Theorem addProject_spec (canonicalize : string -> string)
    (projects : list ProjectInfo) (info : ProjectInfo) :
  (fst (addProject canonicalize projects info) = false <->
     info.(source_path) = "" \/ canonicalize info.(source_path) = "") /\
  (fst (addProject canonicalize projects info) = false ->
     snd (addProject canonicalize projects info) = projects) /\
  (fst (addProject canonicalize projects info) = true ->
     exists stored, snd (addProject canonicalize projects info) = projects ++ [stored] /\
       stored.(source_path) <> "" /\
       (exists pre, stored.(source_path) = String.append pre "/") /\
       stored.(name) = info.(name) /\ stored.(revision) = info.(revision) /\
       stored.(external_root_url) = info.(external_root_url) /\
       stored.(type) = info.(type)).
Proof.
  unfold addProject.
  destruct (String.eqb_spec (source_path info) "") as [He|Hne].
  - simpl. repeat split; auto; discriminate.
  - destruct (String.eqb_spec (canonicalize (source_path info)) "") as [He'|Hne'].
    + simpl. repeat split; auto; discriminate.
    + simpl. repeat split.
      * discriminate.
      * intros [H|H]; contradiction.
      * discriminate.
      * intros _. eexists. split; [reflexivity|]. simpl.
        destruct (last_char (canonicalize (source_path info))) as [ch|] eqn:Hl.
        -- destruct ch as [[] [] [] [] [] [] [] []]; cbv iota beta;
             first [ split; [apply append_slash_nonempty|]; split; [eauto|auto]
                   | split; [exact Hne'|]; split; [apply last_char_slash; auto|auto] ].
        -- split; [apply append_slash_nonempty|]. split; [eauto|auto].
Qed.

Lemma addProject_spec_witness :
  addProject (fun s => s) [] (proj "app" "/src/app") = (false, []) \/
  exists stored, snd (addProject (fun s => s) [] (proj "app" "/src/app")) = [] ++ [stored] /\
    stored.(source_path) <> "" /\
    (exists pre, stored.(source_path) = String.append pre "/") /\
    stored.(name) = "app" /\ stored.(revision) = "" /\
    stored.(external_root_url) = "" /\ stored.(type) = Normal.
Proof.
  right. apply (proj2 (proj2 (addProject_spec (fun s => s) [] (proj "app" "/src/app")))).
  reflexivity.
Defined.

End RegistryClaims.

(** ** Claim-once sets: [addFile_Locked] and [ProcessedSet::try_insert] *)
Module ClaimOnce.
Section ClaimOnce.
Context {A : Type}.
Variable step : A -> gset string -> bool * gset string.
Variable key : A -> option string.
Hypothesis step_none : forall c st, key c = None -> step c st = (false, st).
Hypothesis step_some : forall c st x, key c = Some x ->
  step c st = if decide (x ∈ st) then (false, st) else (true, {[x]} ∪ st).

Lemma step_mem (fn : string) (c : A) (st : gset string) :
  fn ∈ (step c st).2 <-> fn ∈ st \/ key c = Some fn.
Proof.
  destruct (key c) as [x|] eqn:Hk.
  - rewrite (step_some c st x Hk). destruct (decide (x ∈ st)) as [Hx|Hx]; simpl.
    + split; [tauto|]. intros [H|H]; [exact H|]. injection H as <-. exact Hx.
    + split.
      * intros H. apply elem_of_union in H as [H|H]; [|tauto].
        apply elem_of_singleton in H. subst. tauto.
      * intros [H|H]; [set_solver|]. injection H as <-. set_solver.
  - rewrite (step_none c st Hk). simpl. split; [tauto|]. intros [H|H]; [exact H|discriminate].
Qed.

Lemma bool_decide_step_mem (fn : string) (c : A) (st : gset string) :
  bool_decide (fn ∈ (step c st).2) = bool_decide (fn ∈ st) || claims key fn c.
Proof.
  unfold claims. pose proof (step_mem fn c st) as H.
  destruct (bool_decide_reflect (fn ∈ (step c st).2)) as [H1|H1];
  destruct (bool_decide_reflect (fn ∈ st)) as [H2|H2];
  destruct (bool_decide_reflect (key c = Some fn)) as [H3|H3]; simpl; tauto.
Qed.

Lemma run_claim (fn : string) (calls : list A) :
  forall st k c, calls !! k = Some c -> key c = Some fn ->
  (run_trace step calls st).1 !! k =
    Some (negb (bool_decide (fn ∈ st) || existsb (claims key fn) (take k calls))).
Proof.
  induction calls as [|a rest IH]; intros st k c Hk Hc; [rewrite lookup_nil in Hk; discriminate|].
  simpl. pose proof (bool_decide_step_mem fn a st) as Hm.
  destruct (step a st) as [r st'] eqn:Hs.
  destruct (run_trace step rest st') as [rs st''] eqn:Hr. simpl in *.
  destruct k as [|k].
  - simpl in Hk. injection Hk as <-. rewrite (step_some a st fn Hc) in Hs.
    simpl. rewrite orb_false_r.
    destruct (decide (fn ∈ st)) as [Hx|Hx]; injection Hs as <- _.
    + rewrite bool_decide_true by exact Hx. reflexivity.
    + rewrite bool_decide_false by exact Hx. reflexivity.
  - simpl in Hk. simpl. specialize (IH st' k c Hk Hc). rewrite Hr in IH. simpl in IH.
    rewrite IH, Hm, orb_assoc. reflexivity.
Qed.

Lemma run_count (fn : string) (calls : list A) :
  forall st,
  List.length (List.filter (fun p => claims key fn p.1 && p.2) (combine calls (run_trace step calls st).1))
  = if bool_decide (fn ∈ st) then 0 else if existsb (claims key fn) calls then 1 else 0.
Proof.
  induction calls as [|a rest IH]; intros st; simpl.
  - destruct (bool_decide (fn ∈ st)); reflexivity.
  - pose proof (bool_decide_step_mem fn a st) as Hm.
    destruct (step a st) as [r st'] eqn:Hs.
    specialize (IH st'). destruct (run_trace step rest st') as [rs st''] eqn:Hr.
    simpl in *. destruct (claims key fn a) eqn:Hca.
    + unfold claims in Hca. apply bool_decide_eq_true in Hca.
      rewrite (step_some a st fn Hca) in Hs.
      rewrite orb_true_r in Hm.
      rewrite Hm in IH.
      destruct (decide (fn ∈ st)) as [Hx|Hx]; injection Hs as <- _; simpl.
      * rewrite bool_decide_true by exact Hx. exact IH.
      * rewrite bool_decide_false by exact Hx. rewrite IH. reflexivity.
    + simpl. rewrite orb_false_r in Hm. rewrite IH, Hm. reflexivity.
Qed.

End ClaimOnce.
End ClaimOnce.

Lemma run_trace_cons {A R S : Type} (step : A -> S -> R * S) (c : A) (rest : list A) (st : S) :
  run_trace step (c :: rest) st =
    let (r, st') := step c st in
    let (rs, st'') := run_trace step rest st' in (r :: rs, st'').
Proof. reflexivity. Qed.

Module GuardClaims.
Import Guard.

Lemma shouldProcess_step_none (outputPrefix : string) (c : call) (st : gset string) :
  claimed_path outputPrefix c = None -> shouldProcess_step outputPrefix c st = (false, st).
Proof.
  unfold claimed_path, shouldProcess_step, shouldProcess.
  destruct c as [f [pr|]]; simpl; [|reflexivity].
  destruct (type pr); simpl; congruence.
Qed.

Lemma shouldProcess_step_some (outputPrefix : string) (c : call) (st : gset string) (x : string) :
  claimed_path outputPrefix c = Some x ->
  shouldProcess_step outputPrefix c st =
    if decide (x ∈ st) then (false, st) else (true, {[x]} ∪ st).
Proof.
  unfold claimed_path, shouldProcess_step, shouldProcess.
  destruct c as [f [pr|]]; simpl; [|discriminate].
  destruct (type pr); simpl; try discriminate; intros H; injection H as <-; reflexivity.
Qed.

(** C2: over any sequence of [shouldProcess] calls on a fresh
    [ProjectManager] (every concurrent run is one, the insertion being
    atomic), a call that computes the output path [fn] returns true exactly
    when no earlier call computed [fn]; so the calls computing [fn] return
    true exactly once in total when at least one call computes it. *)
Theorem shouldProcess_claims_once (outputPrefix : string) (calls : list call) (fn : string) :
  (forall k c, calls !! k = Some c -> claimed_path outputPrefix c = Some fn ->
     (run_trace (shouldProcess_step outputPrefix) calls ∅).1 !! k =
       Some (negb (existsb (fun c' => bool_decide (claimed_path outputPrefix c' = Some fn))
                     (take k calls)))) /\
  List.length (List.filter
     (fun p => bool_decide (claimed_path outputPrefix p.1 = Some fn) && p.2)
     (combine calls (run_trace (shouldProcess_step outputPrefix) calls ∅).1))
  = if existsb (fun c' => bool_decide (claimed_path outputPrefix c' = Some fn)) calls
    then 1 else 0.
Proof.
  split.
  - intros k c Hk Hc.
    rewrite (ClaimOnce.run_claim (shouldProcess_step outputPrefix) (claimed_path outputPrefix)
               (shouldProcess_step_none outputPrefix) (shouldProcess_step_some outputPrefix)
               fn calls ∅ k c Hk Hc).
    rewrite bool_decide_false by set_solver. reflexivity.
  - pose proof (ClaimOnce.run_count (shouldProcess_step outputPrefix) (claimed_path outputPrefix)
               (shouldProcess_step_none outputPrefix) (shouldProcess_step_some outputPrefix)
               fn calls ∅) as H.
    rewrite bool_decide_false in H by set_solver. exact H.
Qed.

Lemma shouldProcess_claims_once_witness :
  (run_trace (shouldProcess_step "/out") race_calls ∅).1 !! 2 = Some false /\
  List.length (List.filter
     (fun p => bool_decide (claimed_path "/out" p.1 = Some "/out/app/main.cc.html") && p.2)
     (combine race_calls (run_trace (shouldProcess_step "/out") race_calls ∅).1)) = 1.
Proof.
  split.
  - rewrite (proj1 (shouldProcess_claims_once "/out" race_calls "/out/app/main.cc.html") 2
               ("/src/app/main.cc", Some app_normal) eq_refl eq_refl).
    reflexivity.
  - rewrite (proj2 (shouldProcess_claims_once "/out" race_calls "/out/app/main.cc.html")).
    reflexivity.
Defined.

End GuardClaims.

Module ProcessedSetClaims.
Import ProcessedSet.

Lemma try_insert_some (c : string) (st : gset string) (x : string) :
  Some c = Some x -> try_insert c st = if decide (x ∈ st) then (false, st) else (true, {[x]} ∪ st).
Proof. intros H. injection H as <-. reflexivity. Qed.

Lemma try_insert_none (c : string) (st : gset string) :
  @Some string c = None -> try_insert c st = (false, st).
Proof. discriminate. Qed.

Lemma existsb_claims_elem (id : string) (l : list string) :
  existsb (claims (@Some string) id) l = bool_decide (id ∈ l).
Proof.
  unfold claims. induction l as [|a l IH]; [reflexivity|]. simpl. rewrite IH.
  destruct (decide (a = id)) as [->|Hne].
  - rewrite (bool_decide_true (Some id = Some id)) by reflexivity.
    rewrite (bool_decide_true (id ∈ id :: l)) by set_solver. reflexivity.
  - rewrite (bool_decide_false (Some a = Some id)) by congruence. simpl.
    apply bool_decide_ext. set_solver.
Qed.

(** The consumers created along a trace are the admissions of [try_insert]. *)
Lemma CreateASTConsumer_trace (calls : list string) :
  forall st,
  (run_trace CreateASTConsumer calls st).1 =
    zip_with (fun f (ok : bool) => if ok then Some (mkConsumer f) else None)
      calls (run_trace try_insert calls st).1 /\
  (run_trace CreateASTConsumer calls st).2 = (run_trace try_insert calls st).2.
Proof.
  induction calls as [|a rest IH]; intros st; [split; reflexivity|].
  rewrite !run_trace_cons.
  destruct (try_insert a st) as [ok st'] eqn:Hs.
  assert (Hca : CreateASTConsumer a st = (if ok then Some (mkConsumer a) else None, st'))
    by (unfold CreateASTConsumer; rewrite Hs; destruct ok; reflexivity).
  rewrite Hca.
  destruct (IH st') as [IH1 IH2].
  destruct (run_trace try_insert rest st') as [rs st''] eqn:Hr.
  destruct (run_trace CreateASTConsumer rest st') as [cs st'''] eqn:Hc.
  simpl in *. subst. destruct ok; split; reflexivity.
Qed.

Lemma consumers_count (id : string) (calls : list string) (rs : list bool) :
  List.length (List.filter
    (fun o => match o with Some c => bool_decide (consumer_file c = id) | None => false end)
    (zip_with (fun f (ok : bool) => if ok then Some (mkConsumer f) else None) calls rs))
  = List.length (List.filter (fun p => bool_decide (Some p.1 = Some id) && p.2) (combine calls rs)).
Proof.
  revert rs. induction calls as [|a rest IH]; intros [|r rs]; simpl; try reflexivity.
  destruct r; simpl.
  - destruct (decide (a = id)) as [->|Hne].
    + rewrite !bool_decide_true by reflexivity. simpl. rewrite IH. reflexivity.
    + rewrite !bool_decide_false by congruence. apply IH.
  - rewrite andb_false_r. apply IH.
Qed.

(** C3: over any sequence of
    admissions starting from the empty [ProcessedSet], [try_insert id]
    returns true exactly when [id] has not been submitted before, so it
    returns true exactly once for an identity that is submitted; and
    [CreateASTConsumer] creates at most one consumer per input file. *)
Theorem try_insert_first_only (calls : list string) (id : string) :
  (forall k, calls !! k = Some id ->
     (run_trace try_insert calls ∅).1 !! k = Some (negb (bool_decide (id ∈ take k calls)))) /\
  List.length (List.filter (fun p => bool_decide (Some p.1 = Some id) && p.2)
                 (combine calls (run_trace try_insert calls ∅).1))
    = (if bool_decide (id ∈ calls) then 1 else 0) /\
  List.length (List.filter
    (fun o => match o with Some c => bool_decide (consumer_file c = id) | None => false end)
    (run_trace CreateASTConsumer calls ∅).1) <= 1.
Proof.
  assert (Hcount := ClaimOnce.run_count try_insert (@Some string) try_insert_none try_insert_some
                      id calls ∅).
  rewrite bool_decide_false in Hcount by set_solver.
  rewrite existsb_claims_elem in Hcount.
  unfold claims in Hcount.
  split; [|split].
  - intros k Hk.
    rewrite (ClaimOnce.run_claim try_insert (@Some string) try_insert_none try_insert_some
               id calls ∅ k id Hk eq_refl).
    rewrite existsb_claims_elem. rewrite bool_decide_false by set_solver. reflexivity.
  - exact Hcount.
  - rewrite (proj1 (CreateASTConsumer_trace calls ∅)), consumers_count, Hcount.
    destruct (bool_decide (id ∈ calls)); lia.
Qed.

Lemma try_insert_first_only_witness :
  (run_trace try_insert ["a.cc"; "b.cc"; "a.cc"] ∅).1 !! 2 = Some false /\
  (run_trace try_insert ["a.cc"; "b.cc"; "a.cc"] ∅).1 !! 0 = Some true.
Proof.
  split.
  - rewrite (proj1 (try_insert_first_only ["a.cc"; "b.cc"; "a.cc"] "a.cc") 2 eq_refl).
    reflexivity.
  - rewrite (proj1 (try_insert_first_only ["a.cc"; "b.cc"; "a.cc"] "a.cc") 0 eq_refl).
    reflexivity.
Defined.

End ProcessedSetClaims.

Module RecoveryExamples.
Import Recovery.
Example lower_bound_am : lower_bound ["/src/a.cc"; "/src/z.cc"] "/src/m.cc" = 1.
Proof. reflexivity. Qed.
Example nearest_am : nearest_file (sort_strings ["/src/z.cc"; "/src/a.cc"]) "/src/m.cc" = Some "/src/z.cc".
Proof. reflexivity. Qed.
Example nearest_wrap : nearest_file ["/src/a.cc"; "/src/b.cc"] "/src/m.cc" = Some "/src/a.cc".
Proof. reflexivity. Qed.
End RecoveryExamples.

Module StringOrder.

Lemma ascii_compare_refl (a : ascii) : Ascii.compare a a = Eq.
Proof. unfold Ascii.compare. apply N.compare_refl. Qed.

Lemma ascii_compare_lt_trans (a b c : ascii) :
  Ascii.compare a b = Lt -> Ascii.compare b c = Lt -> Ascii.compare a c = Lt.
Proof. unfold Ascii.compare. rewrite !N.compare_lt_iff. lia. Qed.

Lemma ascii_compare_eq (a b : ascii) : Ascii.compare a b = Eq -> a = b.
Proof. apply Ascii.compare_eq_iff. Qed.

Lemma compare_refl (a : string) : String.compare a a = Eq.
Proof. induction a as [|c a IH]; simpl; [reflexivity|]. rewrite ascii_compare_refl. exact IH. Qed.

Ltac finish_ascii_cases E1 E2 :=
  repeat match goal with H : Ascii.compare _ _ = Eq |- _ =>
           apply ascii_compare_eq in H; subst end;
  try rewrite ascii_compare_refl; try rewrite E1; try rewrite E2;
  try rewrite (ascii_compare_lt_trans _ _ _ E1 E2); eauto; try discriminate.

(** a <= b < c implies a < c *)
Lemma le_lt_trans (a b c : string) :
  String.compare a b <> Gt -> String.compare b c = Lt -> String.compare a c = Lt.
Proof.
  revert b c. induction a as [|x a IH]; intros [|y b] [|z c] Hab Hbc; simpl in *;
    try congruence.
  destruct (Ascii.compare x y) eqn:E1; try congruence;
  destruct (Ascii.compare y z) eqn:E2; try congruence;
  finish_ascii_cases E1 E2.
Qed.

(** a <= b <= c implies a <= c *)
Lemma le_trans (a b c : string) :
  String.compare a b <> Gt -> String.compare b c <> Gt -> String.compare a c <> Gt.
Proof.
  revert b c. induction a as [|x a IH]; intros [|y b] [|z c] Hab Hbc; simpl in *;
    try congruence.
  destruct (Ascii.compare x y) eqn:E1; try congruence;
  destruct (Ascii.compare y z) eqn:E2; try congruence;
  finish_ascii_cases E1 E2.
Qed.

Lemma leb_iff (a b : string) : String.leb a b = true <-> String.compare a b <> Gt.
Proof. unfold String.leb. destruct (String.compare a b); split; congruence. Qed.

Lemma ltb_iff (a b : string) : String.ltb a b = true <-> String.compare a b = Lt.
Proof. unfold String.ltb. destruct (String.compare a b); split; congruence. Qed.

Lemma leb_refl (a : string) : String.leb a a = true.
Proof. apply leb_iff. rewrite compare_refl. discriminate. Qed.

Lemma leb_trans (a b c : string) :
  String.leb a b = true -> String.leb b c = true -> String.leb a c = true.
Proof. rewrite !leb_iff. apply le_trans. Qed.

Lemma leb_ltb_trans (a b c : string) :
  String.leb a b = true -> String.ltb b c = true -> String.ltb a c = true.
Proof. rewrite leb_iff, !ltb_iff. apply le_lt_trans. Qed.

End StringOrder.

Module RecoveryFacts.
Import Recovery StringOrder.

Lemma insert_sorted_forall (P : string -> Prop) (x : string) (l : list string) :
  Forall P l -> P x -> Forall P (insert_sorted x l).
Proof.
  intros Hl Hx. induction Hl as [|y l' Hy Hl' IH]; simpl; [constructor; auto|].
  destruct (String.leb x y); repeat constructor; auto.
Qed.

Lemma insert_sorted_sorted (x : string) (l : list string) :
  StronglySorted sle l -> StronglySorted sle (insert_sorted x l).
Proof.
  induction 1 as [|y l' Hs IH Hf]; simpl.
  - repeat constructor.
  - destruct (String.leb x y) eqn:Hxy.
    + constructor; [constructor; auto|]. constructor; [exact Hxy|].
      eapply Forall_impl; [exact Hf|]. intros z Hz. exact (leb_trans x y z Hxy Hz).
    + constructor; [exact IH|]. apply insert_sorted_forall; [exact Hf|].
      unfold sle. destruct (String.leb_total x y) as [H|H]; congruence.
Qed.

Lemma sort_strings_sorted (l : list string) : StronglySorted sle (sort_strings l).
Proof. induction l; simpl; [constructor|]. apply insert_sorted_sorted; assumption. Qed.

Lemma strongly_sorted_idx (l : list string) : StronglySorted sle l -> sorted_idx l.
Proof.
  induction 1 as [|a l Hs IH Hf]; intros i j Hij Hj; simpl in Hj; [lia|].
  destruct i as [|i], j as [|j]; simpl.
  - apply leb_refl.
  - rewrite Forall_forall in Hf. apply Hf. apply list_elem_of_In. apply nth_In. lia.
  - lia.
  - apply IH; lia.
Qed.

Lemma count_less_props (l : list string) (x : string) :
  count_less l x <= List.length l /\
  (forall i, i < count_less l x -> str_lt (nth i l "") x = true) /\
  (count_less l x < List.length l -> str_lt (nth (count_less l x) l "") x = false).
Proof.
  induction l as [|s l IH]; simpl; [repeat split; intros; lia|].
  destruct IH as (H1 & H2 & H3).
  destruct (str_lt s x) eqn:Hs; simpl.
  - repeat split; [lia| |intros; apply H3; lia].
    intros [|i] Hi; [exact Hs|]. apply H2. lia.
  - repeat split; [lia| |intros; exact Hs]. intros; lia.
Qed.

Lemma count_less_unique (l : list string) (x : string) (r : nat) :
  r <= List.length l ->
  (forall i, i < r -> str_lt (nth i l "") x = true) ->
  (forall i, r <= i -> i < List.length l -> str_lt (nth i l "") x = false) ->
  r = count_less l x.
Proof.
  intros Hr Hlt Hge. destruct (count_less_props l x) as (H1 & H2 & H3).
  destruct (Nat.lt_trichotomy r (count_less l x)) as [H|[H|H]]; [|exact H|].
  - specialize (H2 r H). rewrite (Hge r) in H2 by lia. discriminate.
  - specialize (Hlt _ H). rewrite H3 in Hlt by lia. discriminate.
Qed.

Lemma lower_bound_loop_S (fuel : nat) (l : list string) (first len : nat) (value : string) :
  lower_bound_loop (S fuel) l first len value =
    if len =? 0 then first else
    if str_lt (nth (first + len / 2) l "") value then
      lower_bound_loop fuel l (first + len / 2 + 1) (len - len / 2 - 1) value
    else lower_bound_loop fuel l first (len / 2) value.
Proof. reflexivity. Qed.

Lemma lower_bound_loop_spec (l : list string) (x : string) (Hs : sorted_idx l) :
  forall fuel first len,
  len <= fuel -> first + len <= List.length l ->
  (forall i, i < first -> str_lt (nth i l "") x = true) ->
  (forall i, first + len <= i -> i < List.length l -> str_lt (nth i l "") x = false) ->
  lower_bound_loop fuel l first len x <= List.length l /\
  (forall i, i < lower_bound_loop fuel l first len x -> str_lt (nth i l "") x = true) /\
  (forall i, lower_bound_loop fuel l first len x <= i -> i < List.length l ->
     str_lt (nth i l "") x = false).
Proof.
  (* elements below an element less than [x] are less than [x] *)
  assert (Hdown : forall i j, i <= j -> j < List.length l ->
            str_lt (nth j l "") x = true -> str_lt (nth i l "") x = true).
  { intros i j Hij Hj H. exact (leb_ltb_trans _ _ _ (Hs i j Hij Hj) H). }
  induction fuel as [|fuel IH]; intros first len Hf Hb Hlo Hhi.
  - simpl. assert (len = 0) by lia. subst len. rewrite Nat.add_0_r in Hhi.
    repeat split; auto; lia.
  - rewrite lower_bound_loop_S.
    destruct (Nat.eqb_spec len 0) as [->|Hne].
    + rewrite Nat.add_0_r in Hhi. repeat split; auto; lia.
    + assert (Hhalf : len / 2 < len) by (apply Nat.div_lt; lia).
      destruct (str_lt (nth (first + len / 2) l "") x) eqn:Hm.
      * apply IH; [lia|lia| |].
        -- intros i Hi. destruct (Nat.lt_ge_cases i first) as [H|H]; [auto|].
           apply (Hdown i (first + len / 2)); [lia|lia|exact Hm].
        -- intros i Hi1 Hi2. apply Hhi; lia.
      * apply IH; [lia|lia|exact Hlo|].
        intros i Hi1 Hi2. destruct (str_lt (nth i l "") x) eqn:Hi; [|reflexivity].
        rewrite (Hdown (first + len / 2) i) in Hm by (auto; lia). discriminate.
Qed.

Lemma lower_bound_count_less (l : list string) (x : string) :
  sorted_idx l -> lower_bound l x = count_less l x.
Proof.
  intros Hs. unfold lower_bound.
  destruct (lower_bound_loop_spec l x Hs (List.length l) 0 (List.length l))
    as (H1 & H2 & H3); [lia|lia|intros; lia|intros; lia|].
  apply count_less_unique; assumption.
Qed.

Lemma count_less_find (l : list string) (x : string) :
  l !! count_less l x = List.find (fun s => negb (str_lt s x)) l.
Proof.
  induction l as [|s l IH]; simpl; [reflexivity|].
  destruct (str_lt s x); simpl; [exact IH|reflexivity].
Qed.

Lemma find_none_count_less (l : list string) (x : string) :
  List.find (fun s => negb (str_lt s x)) l = None -> count_less l x = List.length l.
Proof.
  induction l as [|s l IH]; simpl; [reflexivity|].
  destruct (str_lt s x); simpl; [intros H; f_equal; auto|discriminate].
Qed.

Lemma nearest_file_spec (l : list string) (x : string) :
  sorted_idx l ->
  nearest_file l x =
    match List.find (fun s => negb (str_lt s x)) l with
    | Some d => Some d
    | None => head l
    end.
Proof.
  intros Hs. unfold nearest_file. rewrite (lower_bound_count_less l x Hs).
  destruct (List.find (fun s => negb (str_lt s x)) l) as [d|] eqn:Hf.
  - rewrite <- count_less_find in Hf.
    destruct (Nat.eqb_spec (count_less l x) (List.length l)) as [He|He].
    + rewrite He in Hf. rewrite lookup_ge_None_2 in Hf by lia. discriminate.
    + exact Hf.
  - rewrite (find_none_count_less l x Hf), Nat.eqb_refl. destruct l; reflexivity.
Qed.

End RecoveryFacts.

Module RecoveryClaims.
Import Recovery RecoveryFacts.

(** C4: for a file absent from the compilation database, recovery borrows
    the commands of the first entry of the sorted list of known files that
    is not less than the file, or of the first entry when all are less;
    with known files "/src/a.cc" and "/src/z.cc" and target "/src/m.cc"
    the donor is "/src/z.cc". *)
Theorem recovery_donor_first_not_less (db : Database) (known : list string) (file : string) :
  db file = [] ->
  nearest_file (sort_strings known) file =
    match List.find (fun s => negb (str_lt s file)) (sort_strings known) with
    | Some d => Some d
    | None => head (sort_strings known)
    end /\
  (forall d, nearest_file (sort_strings known) file = Some d ->
     recover_commands db (sort_strings known) file = (db d, d)) /\
  (sort_strings known = ["/src/a.cc"; "/src/z.cc"] -> file = "/src/m.cc" ->
     recover_commands db (sort_strings known) file = (db "/src/z.cc", "/src/z.cc")).
Proof.
  intros Hdb.
  assert (Hs : sorted_idx (sort_strings known))
    by apply strongly_sorted_idx, sort_strings_sorted.
  assert (Hrec : forall d, nearest_file (sort_strings known) file = Some d ->
            recover_commands db (sort_strings known) file = (db d, d)).
  { intros d Hd. unfold recover_commands. rewrite Hdb, Hd. reflexivity. }
  split; [|split].
  - apply nearest_file_spec. exact Hs.
  - exact Hrec.
  - intros Hk Hf. apply Hrec. rewrite (nearest_file_spec _ _ Hs), Hk, Hf. reflexivity.
Qed.

Lemma recovery_donor_first_not_less_witness :
  recover_commands (fun _ => []) (sort_strings ["/src/z.cc"; "/src/a.cc"]) "/src/m.cc"
    = ([], "/src/z.cc").
Proof.
  apply (proj2 (proj2 (recovery_donor_first_not_less (fun _ => [])
                         ["/src/z.cc"; "/src/a.cc"] "/src/m.cc" eq_refl)));
    reflexivity.
Defined.

(** C5 (as stated, refuted): a token that contains the nearest file's path
    inside a longer string still contains it after the substitution. *)
Lemma replace_embedded_counterexample :
  ~ (forall t, In t (replace ["clang++"; "-c"; "/src/z.cc"; "-MF/src/z.cc.d"]
                       "/src/z.cc" "/src/m.cc") ->
       String.index 0 "/src/z.cc" t = None).
Proof.
  intros H. specialize (H "-MF/src/z.cc.d").
  assert (Hin : In "-MF/src/z.cc.d"
                  (replace ["clang++"; "-c"; "/src/z.cc"; "-MF/src/z.cc.d"]
                     "/src/z.cc" "/src/m.cc")) by (simpl; tauto).
  specialize (H Hin). vm_compute in H. discriminate.
Qed.

End RecoveryClaims.

Module JobBuilderExamples.
Import JobBuilder.
Example build_plain :
  build_command (fun _ => false) id_adj id_adj ["clang++"; "-Iinc"; "-D"; "X"; "a.cc"] "/b" "/b/a.cc"
  = ["clang++"; "-I/b/inc"; "-D"; "X"; "a.cc"; "-isystem"; "/builtins";
     "-Qunused-arguments"; "-Wno-unknown-warning-option"].
Proof. reflexivity. Qed.
Example build_nostdinc :
  build_command (fun _ => true) id_adj id_adj ["clang++"; "-nostdinc"; "a.cc"] "/b" "/b/a.cc"
  = ["/b/clang++"; "-nostdinc"; "/b/a.cc"; "-Qunused-arguments"; "-Wno-unknown-warning-option"].
Proof. reflexivity. Qed.
End JobBuilderExamples.

Module JobBuilderClaims.
Import JobBuilder JobBuilderExamples.

Ltac token_cases :=
  repeat match goal with
         | |- context [if ?b then _ else _] => destruct b eqn:?
         end.

Lemma normalize_token_nostd (exists_path : string -> bool) (D : string) (st : LoopState) (A : string) :
  hasNoStdInc (normalize_token exists_path D st A).2 = true ->
  hasNoStdInc st = true \/ A = "-nostdinc" \/ A = "-nostdinc++".
Proof.
  destruct st as [d m n]; unfold normalize_token; simpl.
  token_cases; simpl; auto; intros _;
  repeat match goal with
         | H : (_ || _)%bool = true |- _ => apply orb_true_iff in H as [H|H]
         | H : String.eqb _ _ = true |- _ => apply String.eqb_eq in H
         end; auto.
Qed.

Lemma normalize_token_nostd_mono (exists_path : string -> bool) (D : string) (st : LoopState) (A : string) :
  hasNoStdInc st = true -> hasNoStdInc (normalize_token exists_path D st A).2 = true.
Proof. destruct st as [d m n]; unfold normalize_token; simpl. intros ->. token_cases; reflexivity. Qed.

Lemma normalize_token_dashI (exists_path : string -> bool) (D : string) (st : LoopState) (A : string) :
  previousIsDashI st = false -> A <> "-I" ->
  previousIsDashI (normalize_token exists_path D st A).2 = false.
Proof.
  destruct st as [d m n]; unfold normalize_token; simpl. intros -> HA.
  token_cases; simpl; try reflexivity.
  apply String.eqb_eq in Heqb0. contradiction.
Qed.

Lemma normalize_token_flag (exists_path : string -> bool) (D : string) (st : LoopState) (A : string) :
  previousIsDashI st = false -> (A = "-nostdinc" \/ A = "-nostdinc++") ->
  normalize_token exists_path D st A =
    (A, mkLoopState false (previousNeedsMacro st) true).
Proof. destruct st as [d m n]; simpl. intros -> [->| ->]; reflexivity. Qed.

Lemma normalize_loop_nostd (exists_path : string -> bool) (D : string) (command : list string) :
  forall st, hasNoStdInc (normalize_loop exists_path D st command).2 = true ->
  hasNoStdInc st = true \/ exists t, In t command /\ (t = "-nostdinc" \/ t = "-nostdinc++").
Proof.
  induction command as [|A rest IH]; intros st; simpl; [auto|].
  destruct (normalize_token exists_path D st A) as [A' st'] eqn:Ht.
  destruct (normalize_loop exists_path D st' rest) as [rest' st''] eqn:Hl. simpl.
  intros H. assert (H' := IH st'). rewrite Hl in H'. simpl in H'.
  destruct (H' H) as [Hn|(t & Hin & Ht')].
  - assert (Hn' := normalize_token_nostd exists_path D st A). rewrite Ht in Hn'.
    destruct (Hn' Hn) as [?|?]; [left; auto|right; exists A; split; [left|]; auto].
  - right. exists t. split; [right|]; auto.
Qed.

Lemma normalize_loop_nostd_mono (exists_path : string -> bool) (D : string) (command : list string) :
  forall st, hasNoStdInc st = true -> hasNoStdInc (normalize_loop exists_path D st command).2 = true.
Proof.
  induction command as [|A rest IH]; intros st Hst; simpl; [exact Hst|].
  pose proof (normalize_token_nostd_mono exists_path D st A Hst) as H1.
  destruct (normalize_token exists_path D st A) as [A' st'] eqn:Ht.
  pose proof (IH st' H1) as H2.
  destruct (normalize_loop exists_path D st' rest) as [rest' st''] eqn:Hl. exact H2.
Qed.

Lemma normalize_loop_flag (exists_path : string -> bool) (D : string) (command : list string) :
  forall st k flag, previousIsDashI st = false ->
  command !! k = Some flag -> (flag = "-nostdinc" \/ flag = "-nostdinc++") ->
  (forall m, m < k -> command !! m <> Some "-I") ->
  (normalize_loop exists_path D st command).1 !! k = Some flag /\
  hasNoStdInc (normalize_loop exists_path D st command).2 = true.
Proof.
  induction command as [|A rest IH]; intros st k flag Hd Hk Hf Hbefore;
    [rewrite lookup_nil in Hk; discriminate|].
  destruct k as [|k].
  - simpl in Hk. injection Hk as ->. simpl.
    rewrite (normalize_token_flag exists_path D st flag Hd Hf).
    pose proof (normalize_loop_nostd_mono exists_path D rest
                  (mkLoopState false (previousNeedsMacro st) true) eq_refl) as Hm.
    destruct (normalize_loop exists_path D _ rest) as [rest' st'']. simpl. auto.
  - simpl in Hk. simpl.
    assert (HA : A <> "-I") by (intros ->; apply (Hbefore 0); [lia|reflexivity]).
    pose proof (normalize_token_dashI exists_path D st A Hd HA) as Hd'.
    destruct (normalize_token exists_path D st A) as [A' st'] eqn:Ht. simpl in Hd'.
    assert (Hb' : forall m, m < k -> rest !! m <> Some "-I")
      by (intros m Hm; apply (Hbefore (S m)); lia).
    destruct (IH st' k flag Hd' Hk Hf Hb') as [H1 H2].
    destruct (normalize_loop exists_path D st' rest) as [rest' st'']. simpl in *. auto.
Qed.

(** C7 (as stated, refuted): "-nostdinc" occurs among the input tokens, yet
    the builtin include path is appended, because the token is consumed as
    the directory argument of the preceding "-I". *)
Lemma nostdinc_after_dashI_counterexample :
  In "-nostdinc" ["clang++"; "-I"; "-nostdinc"; "a.cc"] /\
  build_command (fun _ => false) id_adj id_adj ["clang++"; "-I"; "-nostdinc"; "a.cc"]
    "/b" "/b/a.cc"
  = ["clang++"; "-I"; "/b/-nostdinc"; "a.cc"; "-isystem"; "/builtins";
     "-Qunused-arguments"; "-Wno-unknown-warning-option"].
Proof. split; [simpl; tauto|reflexivity]. Qed.

Lemma normalize_loop_app (exists_path : string -> bool) (D : string) (l1 l2 : list string) :
  forall st,
  normalize_loop exists_path D st (l1 ++ l2) =
  ((normalize_loop exists_path D st l1).1 ++
     (normalize_loop exists_path D (normalize_loop exists_path D st l1).2 l2).1,
   (normalize_loop exists_path D (normalize_loop exists_path D st l1).2 l2).2).
Proof.
  induction l1 as [|A l1 IH]; intros st; simpl.
  - destruct (normalize_loop exists_path D st l2); reflexivity.
  - destruct (normalize_token exists_path D st A) as [A' st'].
    rewrite IH. destruct (normalize_loop exists_path D st' l1) as [o1 s1]. simpl.
    destruct (normalize_loop exists_path D s1 l2). reflexivity.
Qed.

Lemma normalize_loop_length (exists_path : string -> bool) (D : string) (l : list string) :
  forall st, List.length (normalize_loop exists_path D st l).1 = List.length l.
Proof.
  induction l as [|A l IH]; intros st; simpl; [reflexivity|].
  destruct (normalize_token exists_path D st A) as [A' st'].
  specialize (IH st'). destruct (normalize_loop exists_path D st' l). simpl in *. lia.
Qed.

Lemma normalize_token_nostd_set (exists_path : string -> bool) (D : string) (st : LoopState)
    (A : string) :
  hasNoStdInc (normalize_token exists_path D st A).2 = true ->
  hasNoStdInc st = true \/
  (previousIsDashI st = false /\ (A = "-nostdinc" \/ A = "-nostdinc++")).
Proof.
  intros H. destruct (normalize_token_nostd exists_path D st A H) as [Hn|Hf]; [left; exact Hn|].
  destruct (hasNoStdInc st) eqn:Hn; [left; reflexivity|right].
  split; [|exact Hf].
  destruct st as [d m n]; simpl in *. subst n. destruct d; [|reflexivity].
  exfalso. destruct Hf as [->| ->]; simpl in H; discriminate.
Qed.

Lemma normalize_token_consumed (exists_path : string -> bool) (D : string) (st : LoopState)
    (A : string) :
  previousIsDashI st = true -> (A = "-nostdinc" \/ A = "-nostdinc++") ->
  (normalize_token exists_path D st A).1 = D +:+ "/" +:+ A.
Proof. destruct st as [d m n]; simpl. intros -> [->| ->]; reflexivity. Qed.

Lemma normalize_loop_nostd_at (exists_path : string -> bool) (D : string) (command : list string) :
  forall st, hasNoStdInc (normalize_loop exists_path D st command).2 = true ->
  hasNoStdInc st = true \/
  exists k flag, command !! k = Some flag /\ (flag = "-nostdinc" \/ flag = "-nostdinc++") /\
    previousIsDashI (normalize_loop exists_path D st (take k command)).2 = false.
Proof.
  induction command as [|A rest IH]; intros st; simpl; [auto|].
  destruct (normalize_token exists_path D st A) as [A' st'] eqn:Ht.
  pose proof (IH st') as H'.
  destruct (normalize_loop exists_path D st' rest) as [rest' st''] eqn:Hl. simpl in *.
  intros H. destruct (H' H) as [Hn|(k & flag & Hk & Hf & Hd)].
  - pose proof (normalize_token_nostd_set exists_path D st A) as Hs. rewrite Ht in Hs.
    destruct (Hs Hn) as [?|[Hd Hf]]; [left; auto|right].
    exists 0, A. simpl. auto.
  - right. exists (S k), flag. simpl. split; [exact Hk|split; [exact Hf|]].
    rewrite Ht. destruct (normalize_loop exists_path D st' (take k rest)). exact Hd.
Qed.

(** C7 (amended): the builtin include path is appended after the adjusted
    command exactly when no "-nostdinc" or "-nostdinc++" token is reached by
    the normalization loop while its [previousIsDashI] flag is false; in
    particular it is appended when neither flag occurs. Such a token reached
    with the flag false is kept and suppresses the path; one reached with
    the flag true is the directory argument of a "-I": it is rewritten to
    [Directory/flag] and does not suppress the path. *)
Theorem builtin_include_appended (exists_path : string -> bool)
    (syntax_only_adjuster strip_output_adjuster : list string -> string -> list string)
    (command : list string) (Directory file : string) :
  let adjusted := strip_output_adjuster (syntax_only_adjuster
        (normalize_loop exists_path Directory loop_init command).1 file) file in
  let reached_free k :=
    previousIsDashI (normalize_loop exists_path Directory loop_init (take k command)).2 in
  (build_command exists_path syntax_only_adjuster strip_output_adjuster command Directory file
     = adjusted ++ ["-isystem"; "/builtins"; "-Qunused-arguments"; "-Wno-unknown-warning-option"]
   <-> ~ exists k flag, command !! k = Some flag /\
          (flag = "-nostdinc" \/ flag = "-nostdinc++") /\ reached_free k = false) /\
  ((exists k flag, command !! k = Some flag /\
      (flag = "-nostdinc" \/ flag = "-nostdinc++") /\ reached_free k = false) ->
   build_command exists_path syntax_only_adjuster strip_output_adjuster command Directory file
     = adjusted ++ ["-Qunused-arguments"; "-Wno-unknown-warning-option"]) /\
  (forall k flag, command !! k = Some flag -> (flag = "-nostdinc" \/ flag = "-nostdinc++") ->
     (normalize_loop exists_path Directory loop_init command).1 !! k =
       Some (if reached_free k then Directory +:+ "/" +:+ flag else flag)).
Proof.
  intros adjusted reached_free.
  assert (Hat : forall k flag, command !! k = Some flag ->
    (normalize_loop exists_path Directory loop_init command).1 !! k =
      Some (normalize_token exists_path Directory
         (normalize_loop exists_path Directory loop_init (take k command)).2 flag).1 /\
    (hasNoStdInc (normalize_token exists_path Directory
         (normalize_loop exists_path Directory loop_init (take k command)).2 flag).2 = true ->
     hasNoStdInc (normalize_loop exists_path Directory loop_init command).2 = true)).
  { intros k flag Hk.
    pose proof (take_drop_middle command k flag Hk) as Hsplit.
    rewrite <- Hsplit at 1 4. rewrite normalize_loop_app.
    cbn [fst snd normalize_loop].
    destruct (normalize_token exists_path Directory
                (normalize_loop exists_path Directory loop_init (take k command)).2 flag)
      as [A' st'] eqn:Ht.
    pose proof (normalize_loop_nostd_mono exists_path Directory (drop (S k) command) st') as Hm.
    destruct (normalize_loop exists_path Directory st' (drop (S k) command)) as [r' st''].
    cbn [fst snd] in *. split; [|exact Hm].
    assert (Hkl : k <= List.length command) by (apply lookup_lt_Some in Hk; lia).
    rewrite lookup_app_r; rewrite normalize_loop_length, length_take_le; try lia.
    rewrite Nat.sub_diag. reflexivity. }
  assert (Hiff : hasNoStdInc (normalize_loop exists_path Directory loop_init command).2 = true
    <-> exists k flag, command !! k = Some flag /\
          (flag = "-nostdinc" \/ flag = "-nostdinc++") /\ reached_free k = false).
  { split.
    - intros H. destruct (normalize_loop_nostd_at exists_path Directory command loop_init H)
        as [Hc|Hc]; [discriminate|exact Hc].
    - intros (k & flag & Hk & Hf & Hd). apply (proj2 (Hat k flag Hk)).
      rewrite (normalize_token_flag exists_path Directory _ flag Hd Hf). reflexivity. }
  unfold adjusted, build_command.
  destruct (normalize_loop exists_path Directory loop_init command) as [c st] eqn:E.
  cbn [fst snd] in *.
  split; [|split].
  - rewrite <- Hiff. destruct (hasNoStdInc st); cbn [negb].
    + split; [|intros H; exfalso; exact (H eq_refl)].
      intros H. apply (f_equal (@List.length _)) in H. rewrite !length_app in H. simpl in H. lia.
    + split; [intros _; discriminate|intros _]. rewrite <- app_assoc. reflexivity.
  - intros H. apply Hiff in H. rewrite H. reflexivity.
  - intros k flag Hk Hf. rewrite (proj1 (Hat k flag Hk)).
    unfold reached_free.
    destruct (previousIsDashI (normalize_loop exists_path Directory loop_init (take k command)).2)
      eqn:Hd.
    + f_equal. apply normalize_token_consumed; assumption.
    + rewrite (normalize_token_flag exists_path Directory _ flag Hd Hf). reflexivity.
Qed.

Lemma builtin_include_appended_witness :
  build_command (fun _ => false) id_adj id_adj ["clang++"; "-I"; "inc"; "-nostdinc"; "a.cc"]
    "/b" "/b/a.cc"
  = ["clang++"; "-I"; "/b/inc"; "-nostdinc"; "a.cc";
     "-Qunused-arguments"; "-Wno-unknown-warning-option"].
Proof.
  destruct (builtin_include_appended (fun _ => false) id_adj id_adj
              ["clang++"; "-I"; "inc"; "-nostdinc"; "a.cc"] "/b" "/b/a.cc") as (_ & H & _).
  rewrite H; [reflexivity|].
  exists 3, "-nostdinc". split; [reflexivity|]. split; [left; reflexivity|]. reflexivity.
Defined.

End JobBuilderClaims.

Module JobBuilderPaths.
Import JobBuilder JobBuilderExamples.

Lemma normalize_loop_lookup (exists_path : string -> bool) (D : string) (command : list string) :
  forall st i A, command !! i = Some A ->
  (normalize_loop exists_path D st command).1 !! i =
    Some (normalize_token exists_path D (normalize_loop exists_path D st (take i command)).2 A).1.
Proof.
  induction command as [|B rest IH]; intros st i A Hi; [rewrite lookup_nil in Hi; discriminate|].
  destruct i as [|i]; simpl in Hi.
  - injection Hi as ->. simpl.
    destruct (normalize_token exists_path D st A) as [A' st'] eqn:Ht.
    destruct (normalize_loop exists_path D st' rest) as [rest' st'']. reflexivity.
  - simpl. destruct (normalize_token exists_path D st B) as [B' st'] eqn:Ht.
    specialize (IH st' i A Hi).
    destruct (normalize_loop exists_path D st' rest) as [rest' st''] eqn:Hl. simpl in IH.
    simpl. rewrite IH.
    destruct (normalize_loop exists_path D st' (take i rest)) as [p q]. reflexivity.
Qed.

Ltac not_literal H :=
  apply String.eqb_neq; intros ->; vm_compute in H; discriminate H.

(** C8 (as stated, refuted): with nothing existing on disk, the relative
    "-I" argument "inc" is still replaced by "/build/inc". *)
Lemma dashI_unchecked_counterexample :
  (fun _ : string => false) "/build/inc" = false /\
  (normalize_loop (fun _ => false) "/build" loop_init ["clang++"; "-I"; "inc"; "a.cc"]).1
    = ["clang++"; "-I"; "/build/inc"; "a.cc"].
Proof. split; reflexivity. Qed.

(** C8 (amended): in the normalization loop, a relative argument of a
    pending "-I" and the directory of a relative "-Idir" token are resolved
    against the working directory without any existence check; a positional
    token (not an argument of "-I", "-D" or "-U", not starting with '-' or
    '/') is replaced by its resolution only if that path exists, and is
    otherwise left unchanged. *)
Theorem absolutize_paths (exists_path : string -> bool) (Directory : string)
    (command : list string) (i : nat) (A : string) :
  command !! i = Some A ->
  let st := (normalize_loop exists_path Directory loop_init (take i command)).2 in
  let out := (normalize_loop exists_path Directory loop_init command).1 !! i in
  (previousIsDashI st = true -> A <> "" -> char_is A 0 "/" = false ->
     out = Some (String.append Directory (String.append "/" A))) /\
  (previousIsDashI st = false -> previousNeedsMacro st = false ->
     String.prefix "-I" A = true -> A <> "-I" -> char_is A 2 "/" = false ->
     out = Some (String.append "-I" (String.append Directory (String.append "/"
                  (String.substring 2 (String.length A - 2) A))))) /\
  (previousIsDashI st = false -> previousNeedsMacro st = false -> A <> "" ->
     char_is A 0 "-" = false -> char_is A 0 "/" = false ->
     out = Some (if exists_path (String.append Directory (String.append "/" A))
                 then String.append Directory (String.append "/" A) else A)).
Proof.
  intros Hi st out. unfold out.
  rewrite (normalize_loop_lookup exists_path Directory command loop_init i A Hi).
  fold st. destruct st as [d m n]. simpl.
  split; [|split].
  - intros -> HA Hc. unfold normalize_token.
    rewrite (proj2 (String.eqb_neq A "") HA), Hc. reflexivity.
  - intros -> -> Hp HI Hc. unfold normalize_token. simpl.
    rewrite (proj2 (String.eqb_neq A "-I") HI).
    assert (Hn1 : String.eqb A "-nostdinc" = false) by not_literal Hp.
    assert (Hn2 : String.eqb A "-nostdinc++" = false) by not_literal Hp.
    assert (HU : String.eqb A "-U" = false) by not_literal Hp.
    assert (HD : String.eqb A "-D" = false) by not_literal Hp.
    assert (He : String.eqb A "" = false) by not_literal Hp.
    rewrite Hn1, Hn2, HU, HD, He, Hp, Hc. reflexivity.
  - intros -> -> HA Hm Hs. unfold normalize_token. simpl.
    assert (HI : String.eqb A "-I" = false) by not_literal Hm.
    assert (Hn1 : String.eqb A "-nostdinc" = false) by not_literal Hm.
    assert (Hn2 : String.eqb A "-nostdinc++" = false) by not_literal Hm.
    assert (HU : String.eqb A "-U" = false) by not_literal Hm.
    assert (HD : String.eqb A "-D" = false) by not_literal Hm.
    assert (Hp : String.prefix "-I" A = false).
    { revert Hm. destruct A as [|c A']; [reflexivity|]. unfold char_is. cbn [String.get].
      destruct (ascii_dec c "-") as [->|Hc]; [discriminate|]. intros _.
      cbn [String.prefix]. destruct (ascii_dec "-" c); [congruence|reflexivity]. }
    rewrite HI, Hn1, Hn2, HU, HD, (proj2 (String.eqb_neq A "") HA), Hp, Hm, Hs.
    simpl. destruct (exists_path _); reflexivity.
Qed.

Lemma absolutize_paths_witness :
  (normalize_loop (fun _ => false) "/build" loop_init ["clang++"; "-I"; "inc"; "a.cc"]).1 !! 2
    = Some "/build/inc".
Proof.
  apply (proj1 (absolutize_paths (fun _ => false) "/build" ["clang++"; "-I"; "inc"; "a.cc"]
                  2 "inc" eq_refl)); [reflexivity|discriminate|reflexivity].
Defined.

End JobBuilderPaths.

Module DispatcherClaims.
Import Registry Guard Recovery Dispatcher.

Lemma shouldProcess_claimed (outputPrefix file : string) (project : option ProjectInfo)
    (st st' : gset string) :
  shouldProcess outputPrefix file project st = (true, st') ->
  shouldProcess outputPrefix file project st' = (false, st').
Proof.
  unfold shouldProcess. destruct project as [pr|]; [|discriminate].
  destruct (type pr); try discriminate; unfold addFile_Locked;
    destruct (decide (output_path outputPrefix file pr ∈ st)); try discriminate;
    intros H; injection H as <-;
    rewrite decide_True by set_solver; reflexivity.
Qed.

(** The pages and the [otherIndex] entries of a NotInDB step are never
    extended: the second [shouldProcess] of the fallback asks for the output
    path that the first one of the same iteration has just claimed. *)
Lemma notInDB_step_no_fallback (outputPrefix : string) (projects : list ProjectInfo)
    (db : Database) (AllFiles : list string) (IsProcessingAllDirectory : bool)
    (readable : string -> bool) (date it : string) (s : RunState) :
  (notInDB_step outputPrefix projects db AllFiles IsProcessingAllDirectory readable date it s)
    .(otherIndex) = s.(otherIndex) /\
  (notInDB_step outputPrefix projects db AllFiles IsProcessingAllDirectory readable date it s)
    .(pages) = s.(pages).
Proof.
  unfold notInDB_step.
  destruct (projectForFile projects it) as [idx|] eqn:Hp; [|auto].
  destruct (shouldProcess outputPrefix it (projects !! idx) (exists_files s)) as [ok ef] eqn:Hs.
  destruct ok; cbn [negb]; [|auto].
  destruct (recover_commands db AllFiles it) as [cmds f4c].
  set (s1 := match cmds with
             | [] => set_exists_files s ef
             | cc :: _ => schedule (set_exists_files s ef)
                            (recovered_command (CommandLine cc) f4c it it, it)
             end).
  assert (Hs1 : exists_files s1 = ef /\ otherIndex s1 = otherIndex s /\ pages s1 = pages s)
    by (unfold s1; destruct cmds; simpl; auto).
  change (match cmds with
          | [] => set_exists_files s ef
          | cc :: _ => schedule (set_exists_files s ef)
                         (recovered_command (CommandLine cc) f4c it it, it)
          end) with s1.
  destruct Hs1 as (He & Ho & Hpg).
  destruct IsProcessingAllDirectory; cbn [negb andb]; [auto|].
  destruct (projects !! idx) as [pi|] eqn:Hpi; [|auto].
  assert (H2 : shouldProcess outputPrefix it (Some pi) (exists_files s1)
               = (false, exists_files s1)).
  { rewrite He. apply (shouldProcess_claimed outputPrefix it (Some pi) (exists_files s)).
    exact Hs. }
  rewrite H2. simpl. auto.
Qed.

(** C6 (code defect): a file of project "app" for which recovery finds no
    compile command, outside whole-directory mode, gets neither a plain page
    nor an [otherIndex] entry; and no NotInDB step ever writes one. *)
Theorem notInDB_fallback_never_emitted :
  (recover_commands no_commands ["/src/app/a.cc"] "/src/app/notes.txt").1 = [] /\
  (notInDB_step "/out" failing_projects no_commands ["/src/app/a.cc"] false
     (fun _ => true) "2026-Oct-15" "/src/app/notes.txt" empty_run).(otherIndex) = [] /\
  (notInDB_step "/out" failing_projects no_commands ["/src/app/a.cc"] false
     (fun _ => true) "2026-Oct-15" "/src/app/notes.txt" empty_run).(pages) = [] /\
  (forall outputPrefix projects db AllFiles IsProcessingAllDirectory readable date it s,
     (notInDB_step outputPrefix projects db AllFiles IsProcessingAllDirectory readable date it s)
       .(otherIndex) = s.(otherIndex)).
Proof.
  split; [reflexivity|]. split; [reflexivity|]. split; [reflexivity|].
  intros. apply notInDB_step_no_fallback.
Qed.

End DispatcherClaims.

(** * Further properties of the generator's driver *)

Module StringFacts.
Import Guard Options.

Lemma length_append (a b : string) :
  String.length (a +:+ b) = String.length a + String.length b.
Proof. induction a as [|c a IH]; simpl; auto. Qed.

Lemma substring_full (s : string) : String.substring 0 (String.length s) s = s.
Proof. induction s as [|c s IH]; simpl; [reflexivity|]. rewrite IH. reflexivity. Qed.

Lemma substring_app_l (a b : string) : String.substring 0 (String.length a) (a +:+ b) = a.
Proof.
  induction a as [|c a IH]; simpl; [destruct b; reflexivity|]. rewrite IH. reflexivity.
Qed.

Lemma substring_app_r (a b : string) (n m : nat) :
  String.substring (String.length a + n) m (a +:+ b) = String.substring n m b.
Proof. induction a as [|c a IH]; simpl; auto. Qed.

Lemma substr_from_0 (s : string) : substr_from s 0 = s.
Proof. unfold substr_from. rewrite Nat.sub_0_r. apply substring_full. Qed.

Lemma substr_from_app (a b : string) (n : nat) :
  substr_from (a +:+ b) (String.length a + n) = substr_from b n.
Proof.
  unfold substr_from. rewrite length_append.
  replace (String.length a + String.length b - (String.length a + n))
    with (String.length b - n) by lia.
  apply substring_app_r.
Qed.

Lemma substr_from_cons (c : ascii) (s : string) (k : nat) :
  substr_from (String c s) (S k) = substr_from s k.
Proof. reflexivity. Qed.

Lemma find_from_skip (c : ascii) (a b : string) (i : nat) :
  ~ In c (list_ascii_of_string a) ->
  find_from c (a +:+ b) i = find_from c b (i + String.length a).
Proof.
  revert i. induction a as [|x a IH]; intros i H; simpl.
  - rewrite Nat.add_0_r. reflexivity.
  - simpl in H. destruct (ascii_dec x c) as [->|Hx]; [tauto|].
    rewrite IH by tauto. f_equal. lia.
Qed.

Lemma find_from_none (c : ascii) (b : string) (i : nat) :
  ~ In c (list_ascii_of_string b) -> find_from c b i = None.
Proof.
  revert i. induction b as [|x b IH]; intros i H; simpl; [reflexivity|].
  simpl in H. destruct (ascii_dec x c) as [->|Hx]; [tauto|]. apply IH. tauto.
Qed.

Lemma find_from_hit (c : ascii) (b : string) (i : nat) : find_from c (String c b) i = Some i.
Proof. simpl. destruct (ascii_dec c c); [reflexivity|congruence]. Qed.

(** The colon after a colon-free [n]. *)
Lemma find_char_first (n X : string) :
  ~ In ":"%char (list_ascii_of_string n) ->
  find_char (n +:+ ":" +:+ X) ":" 0 = Some (String.length n).
Proof.
  intros Hn. unfold find_char. rewrite substr_from_0, find_from_skip by exact Hn.
  apply find_from_hit.
Qed.

Lemma substr_after (n X : string) :
  substr_from (n +:+ ":" +:+ X) (String.length n + 1) = X.
Proof.
  rewrite substr_from_app. change (":" +:+ X) with (String ":" X).
  rewrite substr_from_cons, substr_from_0. reflexivity.
Qed.

Lemma find_char_second (n p X : string) :
  ~ In ":"%char (list_ascii_of_string p) ->
  find_char (n +:+ ":" +:+ p +:+ ":" +:+ X) ":" (String.length n + 1)
  = Some (String.length n + 1 + String.length p).
Proof.
  intros Hp. unfold find_char. rewrite substr_after, find_from_skip by exact Hp.
  apply find_from_hit.
Qed.

Lemma find_char_second_none (n p : string) :
  ~ In ":"%char (list_ascii_of_string p) ->
  find_char (n +:+ ":" +:+ p) ":" (String.length n + 1) = None.
Proof. intros Hp. unfold find_char. rewrite substr_after. apply find_from_none, Hp. Qed.

Lemma between_colons_app (n p X : string) :
  between_colons (n +:+ ":" +:+ p +:+ ":" +:+ X) (String.length n)
    (Some (String.length n + 1 + String.length p)) = p.
Proof.
  unfold between_colons.
  replace (String.length n + 1 + String.length p - String.length n - 1)
    with (String.length p) by lia.
  rewrite substring_app_r. change (":" +:+ p +:+ ":" +:+ X) with (String ":" (p +:+ ":" +:+ X)).
  simpl. apply substring_app_l.
Qed.

Lemma substr_after_second (n p X : string) :
  substr_from (n +:+ ":" +:+ p +:+ ":" +:+ X) (String.length n + 1 + String.length p + 1) = X.
Proof.
  replace (String.length n + 1 + String.length p + 1)
    with (String.length n + S (String.length p + 1)) by lia.
  rewrite substr_from_app. change (":" +:+ p +:+ ":" +:+ X) with (String ":" (p +:+ ":" +:+ X)).
  rewrite substr_from_cons. apply (substr_after p X).
Qed.

End StringFacts.

Module OptionsFacts.
Import Registry Guard Options StringFacts.






(** A [-p] option [name:path] or [name:path:revision] with a colon-free
    name and path is parsed back into exactly that name, path and revision
    (empty when absent), as a [Normal] project; the revision may contain
    further colons. *)
Theorem parse_project_option_roundtrip (n p r : string) :
  ~ In ":"%char (list_ascii_of_string n) -> ~ In ":"%char (list_ascii_of_string p) ->
  parse_project_option (n +:+ ":" +:+ p +:+ ":" +:+ r) = Some (mkProjectInfo n p r "" Normal) /\
  parse_project_option (n +:+ ":" +:+ p) = Some (mkProjectInfo n p "" "" Normal).
Proof.
  intros Hn Hp. unfold parse_project_option. split.
  - rewrite find_char_first by exact Hn. rewrite find_char_second by exact Hp.
    rewrite substring_app_l, between_colons_app, substr_after_second. reflexivity.
  - rewrite find_char_first by exact Hn. rewrite find_char_second_none by exact Hp.
    rewrite substring_app_l. unfold between_colons. rewrite substr_after. reflexivity.
Qed.

Lemma parse_project_option_roundtrip_witness :
  ~ In ":"%char (list_ascii_of_string "qt") /\ ~ In ":"%char (list_ascii_of_string "/src/qt") /\
  parse_project_option ("qt" +:+ ":" +:+ "/src/qt" +:+ ":" +:+ "v5:15")
    = Some (mkProjectInfo "qt" "/src/qt" "v5:15" "" Normal) /\
  parse_project_option ("qt" +:+ ":" +:+ "/src/qt") = Some (mkProjectInfo "qt" "/src/qt" "" "" Normal).
Proof.
  assert (H1 : ~ In ":"%char (list_ascii_of_string "qt")) by (simpl; intuition discriminate).
  assert (H2 : ~ In ":"%char (list_ascii_of_string "/src/qt")) by (simpl; intuition discriminate).
  split; [exact H1|]. split; [exact H2|].
  exact (parse_project_option_roundtrip "qt" "/src/qt" "v5:15" H1 H2).
Defined.

(** An [-e] option [name:path:url] with a colon-free name and path is
    parsed into an [External] project with that name and path, an empty
    revision, and the whole rest, colons included, as its external root
    URL. *)
Theorem parse_external_option_roundtrip (n p u : string) :
  ~ In ":"%char (list_ascii_of_string n) -> ~ In ":"%char (list_ascii_of_string p) ->
  parse_external_option (n +:+ ":" +:+ p +:+ ":" +:+ u) = Some (mkProjectInfo n p "" u External).
Proof.
  intros Hn Hp. unfold parse_external_option.
  rewrite find_char_first by exact Hn. rewrite find_char_second by exact Hp.
  rewrite substring_app_l, between_colons_app, substr_after_second. reflexivity.
Qed.

Lemma parse_external_option_roundtrip_witness :
  ~ In ":"%char (list_ascii_of_string "clang") /\ ~ In ":"%char (list_ascii_of_string "/opt/clang/") /\
  parse_external_option ("clang" +:+ ":" +:+ "/opt/clang/" +:+ ":" +:+ "https://code.woboq.org/llvm")
    = Some (mkProjectInfo "clang" "/opt/clang/" "" "https://code.woboq.org/llvm" External).
Proof.
  assert (H1 : ~ In ":"%char (list_ascii_of_string "clang")) by (simpl; intuition discriminate).
  assert (H2 : ~ In ":"%char (list_ascii_of_string "/opt/clang/")) by (simpl; intuition discriminate).
  split; [exact H1|]. split; [exact H2|].
  exact (parse_external_option_roundtrip "clang" "/opt/clang/" "https://code.woboq.org/llvm" H1 H2).
Defined.

(** An option without any colon is rejected by both parsers, and an [-e]
    option with a single colon (no URL part) is rejected. *)
Theorem parse_options_reject (s n p : string) :
  (~ In ":"%char (list_ascii_of_string s) ->
     parse_project_option s = None /\ parse_external_option s = None) /\
  (~ In ":"%char (list_ascii_of_string n) -> ~ In ":"%char (list_ascii_of_string p) ->
     parse_external_option (n +:+ ":" +:+ p) = None).
Proof.
  split.
  - intros Hs. unfold parse_project_option, parse_external_option, find_char.
    rewrite substr_from_0, find_from_none by exact Hs. split; reflexivity.
  - intros Hn Hp. unfold parse_external_option.
    rewrite find_char_first by exact Hn. rewrite find_char_second_none by exact Hp.
    reflexivity.
Qed.

Lemma parse_options_reject_witness :
  parse_project_option "qt" = None /\ parse_external_option "qt" = None /\
  parse_external_option ("clang" +:+ ":" +:+ "/opt/clang/") = None.
Proof.
  destruct (parse_options_reject "qt" "clang" "/opt/clang/") as [Ha Hb].
  destruct (Ha ltac:(simpl; intuition discriminate)) as [H1 H2].
  split; [exact H1|]. split; [exact H2|].
  apply Hb; simpl; intuition discriminate.
Defined.


End OptionsFacts.

Module SelectionFacts.
Import Registry Recovery Dispatcher SourceSelection StringFacts.

Lemma append_assoc (a b c : string) : (a +:+ b) +:+ c = a +:+ (b +:+ c).
Proof. induction a as [|x a IH]; [reflexivity|]. exact (f_equal (String x) IH). Qed.

Lemma append_nil_r (a : string) : a +:+ "" = a.
Proof. induction a as [|x a IH]; [reflexivity|]. exact (f_equal (String x) IH). Qed.

Lemma length_substring0 (s : string) (k : nat) :
  k <= String.length s -> String.length (String.substring 0 k s) = k.
Proof.
  revert k. induction s as [|c s IH]; intros k Hk; simpl in *.
  - destruct k; [reflexivity|lia].
  - destruct k; [reflexivity|]. simpl. rewrite IH by lia. reflexivity.
Qed.

Lemma split_at (s : string) (k : nat) :
  k <= String.length s ->
  s = String.substring 0 k s +:+ String.substring k (String.length s - k) s.
Proof.
  revert k. induction s as [|c s IH]; intros k Hk; simpl in *.
  - destruct k; reflexivity.
  - destruct k as [|k].
    + exact (f_equal (String c) (eq_sym (substring_full s))).
    + exact (f_equal (String c) (IH k ltac:(lia))).
Qed.

Lemma ends_with_slash_split (s : string) :
  ends_with "/" s = true -> s = String.substring 0 (String.length s - 1) s +:+ "/".
Proof.
  unfold ends_with. simpl String.length. intros H. apply String.eqb_eq in H.
  destruct (String.length s) as [|m] eqn:Hl.
  - destruct s; [discriminate|simpl in Hl; lia].
  - rewrite (split_at s m) at 1 by lia. rewrite Hl.
    replace (S m - m) with 1 by lia. replace (S m - 1) with m by lia.
    replace (String.substring m 1 s) with "/".
    + reflexivity.
    + simpl in H. rewrite Nat.sub_0_r in H. exact (eq_sym H).
Qed.

Lemma ends_with_slash_app (pre : string) : ends_with "/" (pre +:+ "/") = true.
Proof.
  unfold ends_with. rewrite length_append. simpl String.length.
  replace (String.length pre + 1 - 1) with (String.length pre + 0) by lia.
  rewrite substring_app_r. reflexivity.
Qed.

Lemma drop_last_slash (pre : string) :
  String.substring 0 (String.length (pre +:+ "/") - 1) (pre +:+ "/") = pre.
Proof.
  rewrite length_append. simpl String.length. rewrite Nat.add_sub. apply substring_app_l.
Qed.

Lemma slashes_S (k : nat) : slashes (S k) = slashes k +:+ "/".
Proof. induction k as [|k IH]; [reflexivity|]. exact (f_equal (String "/") IH). Qed.

Lemma length_slashes (k : nat) : String.length (slashes k) = k.
Proof. induction k as [|k IH]; simpl; auto. Qed.

Lemma strip_loop_spec (fuel : nat) :
  forall s, String.length s <= fuel ->
  ends_with "/" (strip_loop fuel s) = false /\ exists k, s = strip_loop fuel s +:+ slashes k.
Proof.
  induction fuel as [|fuel IH]; intros s Hs.
  - destruct s; [|simpl in Hs; lia]. split; [reflexivity|]. exists 0. reflexivity.
  - cbn [strip_loop]. destruct (ends_with "/" s) eqn:E; cbv beta iota.
    + pose proof (ends_with_slash_split s E) as Hsplit.
      set (s' := String.substring 0 (String.length s - 1) s) in *.
      assert (Hl : String.length s' <= fuel).
      { unfold s'. rewrite length_substring0 by lia. lia. }
      destruct (IH s' Hl) as [Hend [k Hk]]. split; [exact Hend|].
      exists (S k). rewrite slashes_S, <- append_assoc, <- Hk. exact Hsplit.
    + split; [exact E|]. exists 0. simpl. symmetry. apply append_nil_r.
Qed.

Lemma strip_loop_slashes (fuel : nat) :
  forall k, k <= fuel -> strip_loop fuel (slashes k) = "".
Proof.
  induction fuel as [|fuel IH]; intros k Hk.
  - assert (k = 0) as -> by lia. reflexivity.
  - destruct k as [|k]; [reflexivity|].
    cbn [strip_loop]. rewrite slashes_S, ends_with_slash_app, drop_last_slash.
    apply IH. lia.
Qed.

Lemma strip_slashes (k : nat) : strip_trailing_slashes (slashes k) = "".
Proof. unfold strip_trailing_slashes. apply strip_loop_slashes. rewrite length_slashes. lia. Qed.

(** Directory mode's [DirName]: the stripped name never ends in '/', and
    the input is that name followed by nothing but slashes; a name made
    only of slashes (such as "/") is stripped to the empty string. *)
Theorem strip_trailing_slashes_spec (s : string) :
  ends_with "/" (strip_trailing_slashes s) = false /\
  (exists k, s = strip_trailing_slashes s +:+ slashes k) /\
  (forall k, strip_trailing_slashes (slashes k) = "").
Proof.
  unfold strip_trailing_slashes at 1 2.
  destruct (strip_loop_spec (String.length s) s ltac:(lia)) as [H1 H2].
  split; [exact H1|]. split; [exact H2|]. apply strip_slashes.
Qed.

Lemma check_sources_proceed (ProjectPaths Sources : list string) (dir : bool)
    (projects : list ProjectInfo) (Sources' : list string) (dir' : bool)
    (projects' : list ProjectInfo) :
  check_sources ProjectPaths Sources dir projects = Proceed Sources' dir' projects' ->
  Sources' = Sources /\ dir' = dir /\ projects' = projects /\ Sources <> [] /\
  (ProjectPaths <> [] \/ dir = true).
Proof.
  unfold check_sources. destruct Sources as [|s0 Sources]; [discriminate|].
  destruct ProjectPaths as [|p0 ProjectPaths].
  - destruct dir; [|discriminate]. intros H. injection H as <- <- <-.
    repeat split; auto; discriminate.
  - intros H. injection H as <- <- <-.
    repeat split; try reflexivity; try discriminate; try (left; discriminate).
Qed.

(** [main] goes on to process files only with a non-empty list of sources
    and, outside directory mode, at least one [-p] option. With [-a] the
    sources are the sorted database files and no source path was given;
    directory mode needs a single path that is a directory and no [-a], and
    lists that directory's tree; otherwise the sources are the given paths.
    The registry changes only in directory mode without [-p]. *)
Theorem select_sources_proceed (native : string -> string) (is_directory : string -> bool)
    (path_filename canonicalize : string -> string) (dir_tree : string -> option (list Entry))
    (SourcePaths AllFiles : list string) (ProcessAllSources : bool)
    (ProjectPaths : list string) (projects : list ProjectInfo)
    (Sources : list string) (dir : bool) (projects' : list ProjectInfo) :
  select_sources native is_directory path_filename canonicalize dir_tree
    SourcePaths AllFiles ProcessAllSources ProjectPaths projects = Proceed Sources dir projects' ->
  Sources <> [] /\ (ProjectPaths <> [] \/ dir = true) /\
  (ProcessAllSources = true ->
     SourcePaths = [] /\ Sources = sort_strings AllFiles /\ dir = false) /\
  (dir = true -> exists d es, SourcePaths = [d] /\ is_directory d = true /\
     ProcessAllSources = false /\
     dir_tree (strip_trailing_slashes (native d)) = Some es /\
     Sources = walk (strip_trailing_slashes (native d)) es) /\
  (dir = false -> ProcessAllSources = false -> Sources = SourcePaths) /\
  (ProjectPaths <> [] \/ dir = false -> projects' = projects).
Proof.
  unfold select_sources.
  destruct ProcessAllSources; destruct SourcePaths as [|d [|d2 rest]]; cbn [List.length Nat.eqb andb].
  - intros H. apply check_sources_proceed in H as (-> & -> & -> & H1 & H2).
    repeat split; auto; discriminate.
  - discriminate.
  - discriminate.
  - intros H. apply check_sources_proceed in H as (-> & -> & -> & H1 & H2).
    repeat split; auto; discriminate.
  - destruct (is_directory d) eqn:Hd.
    + destruct (dir_tree (strip_trailing_slashes (native d))) as [es|] eqn:Ht; [|discriminate].
      intros H. apply check_sources_proceed in H as (-> & -> & Hp & H1 & H2).
      repeat split; auto; try discriminate.
      * intros _. exists d, es. repeat split; auto.
      * intros [Hne|Hf]; [|discriminate]. subst projects'.
        destruct ProjectPaths; [contradiction|reflexivity].
    + intros H. apply check_sources_proceed in H as (-> & -> & -> & H1 & H2).
      repeat split; auto; discriminate.
  - intros H. apply check_sources_proceed in H as (-> & -> & -> & H1 & H2).
    repeat split; auto; discriminate.
Qed.

Lemma select_sources_proceed_witness :
  select_sources (fun s => s) (fun _ => false) (fun s => s) (fun s => s) (fun _ => None)
    ["/src/app/a.cc"] [] false ["app:/src/app"] [] = Proceed ["/src/app/a.cc"] false [] /\
  ["/src/app/a.cc"] <> [].
Proof.
  assert (H : select_sources (fun s => s) (fun _ => false) (fun s => s) (fun s => s)
                (fun _ => None) ["/src/app/a.cc"] [] false ["app:/src/app"] []
              = Proceed ["/src/app/a.cc"] false []) by reflexivity.
  split; [exact H|].
  exact (proj1 (select_sources_proceed _ _ _ _ _ _ _ _ _ _ _ _ _ H)).
Defined.

Lemma walk_entry_eq (dir n : string) (cs : list Entry) :
  walk_entry dir (entry n cs) =
  if String.prefix "." n then [] else (dir +:+ "/" +:+ n) :: walk (dir +:+ "/" +:+ n) cs.
Proof.
  simpl. destruct (String.prefix "." n); reflexivity.
Qed.

(** The directory walk of [main] lists exactly the paths below [DirName]
    reached through names that do not start with "."; a hidden file, and
    everything inside a hidden directory, is left out. *)
Theorem walk_lists_visible (dir : string) (es : list Entry) (p : string) :
  In p (walk dir es) <-> visible dir es p.
Proof.
  split.
  - unfold walk. rewrite in_flat_map. intros [e [He Hp]]. revert dir es p He Hp.
    induction e as [n cs IH] using Entry_ind'. intros dir es p He Hp.
    rewrite walk_entry_eq in Hp. destruct (String.prefix "." n) eqn:Hdot; [destruct Hp|].
    destruct Hp as [<-|Hp]; [eapply vis_here; eauto|].
    unfold walk in Hp. rewrite in_flat_map in Hp. destruct Hp as [c [Hc Hp]].
    rewrite List.Forall_forall in IH. eapply vis_below; eauto.
  - induction 1 as [dir es n cs Hin Hdot|dir es n cs p Hin Hdot Hv IH];
      unfold walk; apply in_flat_map; exists (entry n cs); split; auto;
      rewrite walk_entry_eq, Hdot; [left; reflexivity|right; exact IH].
Qed.

End SelectionFacts.

Module SourcesFacts.
Import Registry Guard Recovery SourcesLoop.

Section Step.
Variables (getAbsolutePath canonicalize extension : string -> string)
  (projects : list ProjectInfo) (db : Database) (dir : bool).

Lemma sources_step_cases (total : nat) (s : SourcesState) (it : string) :
  let s' := sources_step getAbsolutePath canonicalize extension projects db dir total s it in
  s' = mkSourcesState (S (Progress s)) (jobs s) (NotInDB s) (percents s) \/
  (exists cc rest idx pr, it <> "" /\ it <> "-" /\
     projectForFile projects (canonicalize (getAbsolutePath it)) = Some idx /\
     projects !! idx = Some pr /\ pr.(type) <> External /\
     db (getAbsolutePath it) = cc :: rest /\
     isHeader extension (canonicalize (getAbsolutePath it)) = false /\
     s' = mkSourcesState (S (Progress s))
            (jobs s ++ [mkJob cc.(CommandLine) cc.(Directory) (getAbsolutePath it)
                          (if dir then ProcessFullDirectory else InDatabase)])
            (NotInDB s) (percents s ++ [percent (S (Progress s)) total])) \/
  (exists idx pr, it <> "" /\ it <> "-" /\
     projectForFile projects (canonicalize (getAbsolutePath it)) = Some idx /\
     projects !! idx = Some pr /\ pr.(type) <> External /\
     (isHeader extension (canonicalize (getAbsolutePath it)) = true \/
      db (getAbsolutePath it) = []) /\
     s' = mkSourcesState (Progress s) (jobs s)
            (NotInDB s ++ [canonicalize (getAbsolutePath it)]) (percents s)).
Proof.
  cbv zeta. unfold sources_step. cbn [Progress jobs NotInDB percents].
  destruct (String.eqb it "" || String.eqb it "-") eqn:E; [left; reflexivity|].
  apply orb_false_elim in E as [E1 E2].
  apply String.eqb_neq in E1. apply String.eqb_neq in E2.
  destruct (projectForFile projects (canonicalize (getAbsolutePath it))) as [idx|] eqn:Hp;
    [|left; reflexivity].
  unfold shouldProcess0. destruct (projects !! idx) as [pr|] eqn:Hpr; [|left; reflexivity].
  assert (Hne : pr.(type) = External \/ pr.(type) <> External)
    by (destruct (type pr); [right|right|left]; congruence || reflexivity).
  destruct Hne as [Ht|Ht]; [rewrite Ht; left; reflexivity|].
  replace (match type pr with External => false | _ => true end) with true
    by (destruct (type pr); congruence).
  cbn [negb].
  destruct (db (getAbsolutePath it)) as [|cc rest] eqn:Hdb.
  - right; right. exists idx, pr. repeat split; auto.
    f_equal; lia.
  - destruct (isHeader extension (canonicalize (getAbsolutePath it))) eqn:Hh.
    + right; right. exists idx, pr. repeat split; auto.
      f_equal; lia.
    + right; left. exists cc, rest, idx, pr. repeat split; auto.
Qed.

Lemma percent_bound (p total : nat) :
  p <= total -> (N.of_nat total <= 21474836)%N -> exists q, percent p total = Some q /\ q <= 100.
Proof.
  intros H Ht. unfold percent, INT_MAX.
  assert (E : (100 * N.of_nat p <=? 2147483647)%N = true) by (apply N.leb_le; lia).
  rewrite E. eexists; split; [reflexivity|]. apply Nat.Div0.div_le_upper_bound. lia.
Qed.

Lemma sources_fold_progress (total : nat) (l : list string) (Ht : (N.of_nat total <= 21474836)%N) :
  forall s, Progress s + List.length (NotInDB s) + List.length l <= total ->
  Forall (fun x => exists q, x = Some q /\ q <= 100) (percents s) ->
  let s' := fold_left (sources_step getAbsolutePath canonicalize extension projects db dir total)
              l s in
  Progress s' + List.length (NotInDB s') = Progress s + List.length (NotInDB s) + List.length l /\
  Forall (fun x => exists q, x = Some q /\ q <= 100) (percents s').
Proof.
  induction l as [|it l IH]; intros s Hb Hf; cbv zeta; cbn [fold_left].
  - simpl. split; [lia|exact Hf].
  - change (List.length (it :: l)) with (S (List.length l)) in *.
    destruct (sources_step_cases total s it) as [E|[(cc & rest & idx & pr & _ & _ & _ & _ & _ & _ & _ & E)
                                                   |(idx & pr & _ & _ & _ & _ & _ & _ & E)]];
      rewrite E.
    + destruct (IH (mkSourcesState (S (Progress s)) (jobs s) (NotInDB s) (percents s)))
        as [H1 H2]; cbn [Progress NotInDB percents jobs List.length] in *; [lia|exact Hf|].
      split; [lia|exact H2].
    + destruct (IH (mkSourcesState (S (Progress s))
            (jobs s ++ [mkJob cc.(CommandLine) cc.(Directory) (getAbsolutePath it)
                          (if dir then ProcessFullDirectory else InDatabase)])
            (NotInDB s) (percents s ++ [percent (S (Progress s)) total])))
        as [H1 H2]; cbn [Progress NotInDB percents jobs List.length] in *; [lia| |split; [lia|exact H2]].
      apply Forall_app. split; [exact Hf|]. constructor; [|constructor].
      apply percent_bound; lia.
    + destruct (IH (mkSourcesState (Progress s) (jobs s)
            (NotInDB s ++ [canonicalize (getAbsolutePath it)]) (percents s)))
        as [H1 H2]; cbn [Progress NotInDB percents jobs List.length] in *; rewrite ?length_app in *; cbn [List.length] in *; [lia|exact Hf|].
      split; [lia|exact H2].
Qed.

Lemma sources_fold_jobs (total : nat) (l : list string) :
  forall s j,
  In j (jobs (fold_left (sources_step getAbsolutePath canonicalize extension projects db dir total)
                l s)) ->
  In j (jobs s) \/
  exists it cc rest idx pr, In it l /\ it <> "" /\ it <> "-" /\
    projectForFile projects (canonicalize (getAbsolutePath it)) = Some idx /\
    projects !! idx = Some pr /\ pr.(type) <> External /\
    isHeader extension (canonicalize (getAbsolutePath it)) = false /\
    db (getAbsolutePath it) = cc :: rest /\
    j = mkJob cc.(CommandLine) cc.(Directory) (getAbsolutePath it)
          (if dir then ProcessFullDirectory else InDatabase).
Proof.
  induction l as [|it l IH]; intros s j Hj; cbn [fold_left] in Hj; [left; exact Hj|].
  destruct (IH _ _ Hj) as [Hin|(it' & cc & rest & idx & pr & Hit & H)];
    [|right; exists it', cc, rest, idx, pr; split; [right; exact Hit|exact H]].
  destruct (sources_step_cases total s it) as [E|[(cc & rest & idx & pr & H1 & H2 & H3 & H4 & H5 & H6 & H7 & E)
                                                 |(idx & pr & _ & _ & _ & _ & _ & _ & E)]];
    rewrite E in Hin; cbn [jobs] in Hin; [left; exact Hin| |left; exact Hin].
  apply in_app_or in Hin as [Hin|Hin]; [left; exact Hin|].
  destruct Hin as [<-|[]]. right. exists it, cc, rest, idx, pr.
  repeat split; auto. left. reflexivity.
Qed.

Lemma sources_fold_delayed (total : nat) (l : list string) :
  forall s f,
  In f (NotInDB (fold_left (sources_step getAbsolutePath canonicalize extension projects db dir
                              total) l s)) ->
  In f (NotInDB s) \/
  exists it idx pr, In it l /\ it <> "" /\ it <> "-" /\ f = canonicalize (getAbsolutePath it) /\
    projectForFile projects f = Some idx /\ projects !! idx = Some pr /\ pr.(type) <> External /\
    (isHeader extension f = true \/ db (getAbsolutePath it) = []).
Proof.
  induction l as [|it l IH]; intros s f Hf; cbn [fold_left] in Hf; [left; exact Hf|].
  destruct (IH _ _ Hf) as [Hin|(it' & idx & pr & Hit & H)];
    [|right; exists it', idx, pr; split; [right; exact Hit|exact H]].
  destruct (sources_step_cases total s it) as [E|[(cc & rest & idx & pr & _ & _ & _ & _ & _ & _ & _ & E)
                                                 |(idx & pr & H1 & H2 & H3 & H4 & H5 & H6 & E)]];
    rewrite E in Hin; cbn [NotInDB] in Hin; [left; exact Hin|left; exact Hin|].
  apply in_app_or in Hin as [Hin|Hin]; [left; exact Hin|].
  destruct Hin as [<-|[]]. right. exists it, idx, pr.
  repeat split; auto. left. reflexivity.
Qed.

Lemma sources_step_jobs (total : nat) (s : SourcesState) (it : string) :
  jobs (sources_step getAbsolutePath canonicalize extension projects db dir total s it) =
  jobs s ++ jobs (sources_step getAbsolutePath canonicalize extension projects db dir total
                    sources_init it).
Proof.
  unfold sources_step. cbv zeta. cbn [Progress jobs NotInDB percents sources_init].
  destruct (String.eqb it "" || String.eqb it "-"); [symmetry; apply app_nil_r|].
  destruct (projectForFile projects (canonicalize (getAbsolutePath it))); [|symmetry; apply app_nil_r].
  destruct (negb _); [symmetry; apply app_nil_r|].
  destruct (db (getAbsolutePath it)); [symmetry; apply app_nil_r|].
  destruct (isHeader extension (canonicalize (getAbsolutePath it))); [symmetry; apply app_nil_r|].
  reflexivity.
Qed.

End Step.

(** The Sources loop of [main]: at its end [Progress] plus the number of
    delayed files equals the number of sources (every entry counts once,
    a delayed one is counted back), and every percentage it prints is at
    most 100, provided there are at most 21474836 sources, so that
    [100 * Progress] never overflows [int]. *)
Theorem sources_loop_progress (getAbsolutePath canonicalize extension : string -> string)
    (projects : list ProjectInfo) (db : Database) (dir : bool) (Sources : list string)
    (Hsize : (N.of_nat (List.length Sources) <= 21474836)%N) :
  let s := sources_loop getAbsolutePath canonicalize extension projects db dir Sources
             sources_init in
  Progress s + List.length (NotInDB s) = List.length Sources /\
  Forall (fun x => exists q, x = Some q /\ q <= 100) (percents s).
Proof.
  cbv zeta. unfold sources_loop.
  destruct (sources_fold_progress getAbsolutePath canonicalize extension projects db dir
              (List.length Sources) Sources Hsize sources_init) as [H1 H2];
    [simpl; lia|constructor|].
  split; [rewrite H1; simpl; lia|exact H2].
Qed.

Lemma sources_loop_progress_witness :
  (N.of_nat (List.length ["/src/app/a.cc"; "/src/app/a.h"]) <= 21474836)%N /\
  percents (sources_loop (fun s => s) (fun s => s) ext_of [Fixtures.app_proj]
              (fun f => if String.eqb f "/src/app/a.cc"
                        then [mkCompileCommand "/build" "a.cc" ["clang++"; "a.cc"]] else [])
              false ["/src/app/a.cc"; "/src/app/a.h"] sources_init) = [Some 50] /\
  (let s := sources_loop (fun s => s) (fun s => s) ext_of [Fixtures.app_proj]
              (fun f => if String.eqb f "/src/app/a.cc"
                        then [mkCompileCommand "/build" "a.cc" ["clang++"; "a.cc"]] else [])
              false ["/src/app/a.cc"; "/src/app/a.h"] sources_init in
   Progress s + List.length (NotInDB s) = List.length ["/src/app/a.cc"; "/src/app/a.h"] /\
   Forall (fun x => exists q, x = Some q /\ q <= 100) (percents s)).
Proof.
  assert (Hs : (N.of_nat (List.length ["/src/app/a.cc"; "/src/app/a.h"]) <= 21474836)%N)
    by (vm_compute; discriminate).
  split; [exact Hs|]. split; [vm_compute; reflexivity|].
  exact (sources_loop_progress _ _ _ _ _ _ _ Hs).
Defined.

(** Every job the Sources loop schedules comes from a source entry other
    than "" and "-" whose canonical path lies in a project that is not
    [External], is not a header (.h, .H, .hh, .hpp), and has a compile
    command for its absolute path; the job runs that first command's
    command line in its directory on the absolute path, typed
    [ProcessFullDirectory] in directory mode and [InDatabase] otherwise. *)
Theorem sources_loop_jobs (getAbsolutePath canonicalize extension : string -> string)
    (projects : list ProjectInfo) (db : Database) (dir : bool) (Sources : list string)
    (j : Job) :
  In j (jobs (sources_loop getAbsolutePath canonicalize extension projects db dir Sources
                sources_init)) ->
  exists it cc rest idx pr, In it Sources /\ it <> "" /\ it <> "-" /\
    projectForFile projects (canonicalize (getAbsolutePath it)) = Some idx /\
    projects !! idx = Some pr /\ pr.(type) <> External /\
    isHeader extension (canonicalize (getAbsolutePath it)) = false /\
    db (getAbsolutePath it) = cc :: rest /\
    j = mkJob cc.(CommandLine) cc.(Directory) (getAbsolutePath it)
          (if dir then ProcessFullDirectory else InDatabase).
Proof.
  intros Hj. unfold sources_loop in Hj.
  destruct (sources_fold_jobs _ _ _ _ _ _ _ _ _ _ Hj) as [[]|H]. exact H.
Qed.

Lemma sources_loop_jobs_witness :
  In (mkJob ["clang++"; "a.cc"] "/build" "/src/app/a.cc" InDatabase)
     (jobs (sources_loop (fun s => s) (fun s => s) ext_of [Fixtures.app_proj]
              (fun f => if String.eqb f "/src/app/a.cc"
                        then [mkCompileCommand "/build" "a.cc" ["clang++"; "a.cc"]] else [])
              false ["/src/app/a.cc"; "/src/app/a.h"] sources_init)) /\
  exists it cc rest idx pr, In it ["/src/app/a.cc"; "/src/app/a.h"] /\ it <> "" /\ it <> "-" /\
    projectForFile [Fixtures.app_proj] it = Some idx /\
    [Fixtures.app_proj] !! idx = Some pr /\ pr.(type) <> External /\
    isHeader ext_of it = false /\
    (fun f => if String.eqb f "/src/app/a.cc"
              then [mkCompileCommand "/build" "a.cc" ["clang++"; "a.cc"]] else []) it = cc :: rest /\
    mkJob ["clang++"; "a.cc"] "/build" "/src/app/a.cc" InDatabase
      = mkJob cc.(CommandLine) cc.(Directory) it InDatabase.
Proof.
  assert (H : In (mkJob ["clang++"; "a.cc"] "/build" "/src/app/a.cc" InDatabase)
     (jobs (sources_loop (fun s => s) (fun s => s) ext_of [Fixtures.app_proj]
              (fun f => if String.eqb f "/src/app/a.cc"
                        then [mkCompileCommand "/build" "a.cc" ["clang++"; "a.cc"]] else [])
              false ["/src/app/a.cc"; "/src/app/a.h"] sources_init))) by (vm_compute; left; reflexivity).
  split; [exact H|]. exact (sources_loop_jobs _ _ _ _ _ _ _ _ H).
Defined.

(** Every file the Sources loop delays to [NotInDB] is the canonical path
    of a source entry other than "" and "-" that lies in a project that is
    not [External] and is a header or has no compile command. *)
Theorem sources_loop_delayed (getAbsolutePath canonicalize extension : string -> string)
    (projects : list ProjectInfo) (db : Database) (dir : bool) (Sources : list string)
    (f : string) :
  In f (NotInDB (sources_loop getAbsolutePath canonicalize extension projects db dir Sources
                   sources_init)) ->
  exists it idx pr, In it Sources /\ it <> "" /\ it <> "-" /\
    f = canonicalize (getAbsolutePath it) /\
    projectForFile projects f = Some idx /\ projects !! idx = Some pr /\ pr.(type) <> External /\
    (isHeader extension f = true \/ db (getAbsolutePath it) = []).
Proof.
  intros Hf. unfold sources_loop in Hf.
  destruct (sources_fold_delayed _ _ _ _ _ _ _ _ _ _ Hf) as [[]|H]. exact H.
Qed.

Lemma sources_loop_delayed_witness :
  In "/src/app/a.h"
     (NotInDB (sources_loop (fun s => s) (fun s => s) ext_of [Fixtures.app_proj]
                 (fun _ => []) false ["/src/app/a.cc"; "/src/app/a.h"] sources_init)) /\
  exists it idx pr, In it ["/src/app/a.cc"; "/src/app/a.h"] /\ it <> "" /\ it <> "-" /\
    "/src/app/a.h" = it /\
    projectForFile [Fixtures.app_proj] "/src/app/a.h" = Some idx /\
    [Fixtures.app_proj] !! idx = Some pr /\ pr.(type) <> External /\
    (isHeader ext_of "/src/app/a.h" = true \/ (fun _ : string => @nil CompileCommand) it = []).
Proof.
  assert (H : In "/src/app/a.h"
     (NotInDB (sources_loop (fun s => s) (fun s => s) ext_of [Fixtures.app_proj]
                 (fun _ => []) false ["/src/app/a.cc"; "/src/app/a.h"] sources_init)))
    by (vm_compute; right; left; reflexivity).
  split; [exact H|]. exact (sources_loop_delayed _ _ _ _ _ _ _ _ H).
Defined.

(** The Sources loop decides each entry on its own: the jobs it schedules
    are the jobs each entry would get alone, in order. [shouldProcess0]
    claims nothing, so a source listed twice is scheduled twice. *)
Theorem sources_loop_no_dedup (getAbsolutePath canonicalize extension : string -> string)
    (projects : list ProjectInfo) (db : Database) (dir : bool) (Sources : list string) :
  jobs (sources_loop getAbsolutePath canonicalize extension projects db dir Sources sources_init) =
  flat_map (fun it => jobs (sources_step getAbsolutePath canonicalize extension projects db dir
                              (List.length Sources) sources_init it)) Sources.
Proof.
  unfold sources_loop. generalize (List.length Sources) as total. intros total.
  assert (G : forall l s,
    jobs (fold_left (sources_step getAbsolutePath canonicalize extension projects db dir total)
            l s) =
    jobs s ++ flat_map (fun it => jobs (sources_step getAbsolutePath canonicalize extension
                                          projects db dir total sources_init it)) l).
  { induction l as [|it l IH]; intros s; cbn [fold_left flat_map].
    - symmetry. apply app_nil_r.
    - rewrite IH, sources_step_jobs, app_assoc. reflexivity. }
  rewrite G. reflexivity.
Qed.

End SourcesFacts.

Module DispatcherFacts.
Import Registry Guard Recovery Dispatcher StringFacts.

Lemma shouldProcess_grows (outputPrefix f : string) (p : option ProjectInfo)
    (st : gset string) :
  st ⊆ (shouldProcess outputPrefix f p st).2.
Proof.
  unfold shouldProcess. destruct p as [pr|]; [|simpl; set_solver].
  destruct (type pr); simpl; try set_solver;
    unfold addFile_Locked; destruct (decide _); simpl; set_solver.
Qed.

Lemma shouldProcess_true (outputPrefix f : string) (p : option ProjectInfo)
    (st st' : gset string) :
  shouldProcess outputPrefix f p st = (true, st') ->
  exists pr, p = Some pr /\ pr.(type) <> External /\ (output_path outputPrefix f pr ∉ st) /\
    st' = {[output_path outputPrefix f pr]} ∪ st.
Proof.
  unfold shouldProcess. destruct p as [pr|]; [|discriminate].
  destruct (type pr) eqn:Ht; try discriminate; unfold addFile_Locked;
    destruct (decide _) as [Hin|Hin]; try discriminate; intros H; injection H as <-;
    exists pr; repeat split; auto; rewrite Ht; discriminate.
Qed.

Lemma notInDB_step_sched (outputPrefix : string) (projects : list ProjectInfo)
    (db : Database) (AllFiles : list string) (IsProcessingAllDirectory : bool)
    (readable : string -> bool) (date it : string) (s : RunState) :
  let s' := notInDB_step outputPrefix projects db AllFiles IsProcessingAllDirectory
              readable date it s in
  exists_files s ⊆ exists_files s' /\
  (scheduled s' = scheduled s \/
   exists idx pr cmd, projectForFile projects it = Some idx /\ projects !! idx = Some pr /\
     pr.(type) <> External /\ (output_path outputPrefix it pr ∉ exists_files s) /\
     output_path outputPrefix it pr ∈ exists_files s' /\
     scheduled s' = scheduled s ++ [(cmd, it)]).
Proof.
  cbv zeta. unfold notInDB_step.
  destruct (projectForFile projects it) as [idx|] eqn:Hp; [|split; [set_solver|left; reflexivity]].
  destruct (shouldProcess outputPrefix it (projects !! idx) (exists_files s)) as [ok ef] eqn:Hs.
  pose proof (shouldProcess_grows outputPrefix it (projects !! idx) (exists_files s)) as Hg.
  rewrite Hs in Hg. cbn [snd] in Hg.
  destruct ok; cbn [negb]; [|split; [exact Hg|left; reflexivity]].
  pose proof (DispatcherClaims.shouldProcess_claimed _ _ _ _ _ Hs) as Hc.
  apply shouldProcess_true in Hs as (pr & Hpr & Ht & Hnot & ->).
  rewrite Hpr in Hc.
  destruct (recover_commands db AllFiles it) as [cmds f4c].
  destruct IsProcessingAllDirectory; cbn [negb andb].
  - destruct cmds as [|cc rest]; cbn [schedule set_exists_files exists_files scheduled];
      (split; [exact Hg|]); [left; reflexivity|].
    right. exists idx, pr, (recovered_command (CommandLine cc) f4c it it).
    repeat split; auto. set_solver.
  - rewrite Hpr.
    destruct cmds as [|cc rest]; cbn [schedule set_exists_files exists_files scheduled];
      rewrite Hc; cbn [negb set_exists_files exists_files scheduled];
      (split; [exact Hg|]); [left; reflexivity|].
    right. exists idx, pr, (recovered_command (CommandLine cc) f4c it it).
    repeat split; auto. set_solver.
Qed.

Lemma notInDB_fold (outputPrefix : string) (projects : list ProjectInfo)
    (db : Database) (AllFiles : list string) (IsProcessingAllDirectory : bool)
    (readable : string -> bool) (date : string) (l : list string) :
  forall s,
  (forall c f, In (c, f) (scheduled s) -> exists idx pr,
     projectForFile projects f = Some idx /\ projects !! idx = Some pr /\
     pr.(type) <> External /\ output_path outputPrefix f pr ∈ exists_files s) ->
  NoDup (map snd (scheduled s)) ->
  let s' := notInDB_loop outputPrefix projects db AllFiles IsProcessingAllDirectory readable
              date l s in
  (forall c f, In (c, f) (scheduled s') -> exists idx pr,
     projectForFile projects f = Some idx /\ projects !! idx = Some pr /\
     pr.(type) <> External /\ output_path outputPrefix f pr ∈ exists_files s') /\
  NoDup (map snd (scheduled s')) /\
  (forall c f, In (c, f) (scheduled s') -> In (c, f) (scheduled s) \/ In f l).
Proof.
  unfold notInDB_loop. induction l as [|it l IH]; intros s Hinv Hnd; cbv zeta;
    cbn [fold_left]; [split; [exact Hinv|split; [exact Hnd|auto]]|].
  destruct (notInDB_step_sched outputPrefix projects db AllFiles IsProcessingAllDirectory
              readable date it s) as [Hsub Hcase].
  set (s1 := notInDB_step outputPrefix projects db AllFiles IsProcessingAllDirectory
               readable date it s) in *.
  assert (H1 : (forall c f, In (c, f) (scheduled s1) -> exists idx pr,
     projectForFile projects f = Some idx /\ projects !! idx = Some pr /\
     pr.(type) <> External /\ output_path outputPrefix f pr ∈ exists_files s1) /\
     NoDup (map snd (scheduled s1)) /\
     (forall c f, In (c, f) (scheduled s1) -> In (c, f) (scheduled s) \/ f = it)).
  { destruct Hcase as [He|(idx & pr & cmd & Hp & Hpr & Ht & Hnot & Hin & He)]; rewrite He.
    - split; [|split; [exact Hnd|auto]].
      intros c f Hcf. destruct (Hinv c f Hcf) as (idx & pr & H1 & H2 & H3 & H4).
      exists idx, pr. repeat split; auto.
    - split; [|split].
      + intros c f Hcf. apply in_app_or in Hcf as [Hcf|[Hcf|[]]].
        * destruct (Hinv c f Hcf) as (idx' & pr' & H1 & H2 & H3 & H4).
          exists idx', pr'. repeat split; auto.
        * injection Hcf as <- <-. exists idx, pr. repeat split; auto.
      + rewrite map_app. apply NoDup_app. split; [exact Hnd|split].
        * intros x Hx Hx2. apply list_elem_of_In in Hx. apply list_elem_of_In in Hx2.
          destruct Hx2 as [<-|[]].
          apply in_map_iff in Hx as ([c f] & Hf & Hcf). cbn [snd] in Hf. subst f.
          destruct (Hinv c it Hcf) as (idx' & pr' & H1 & H2 & H3 & H4).
          rewrite Hp in H1. injection H1 as <-. rewrite Hpr in H2. injection H2 as <-.
          exact (Hnot H4).
        * constructor; [set_solver|constructor].
      + intros c f Hcf. apply in_app_or in Hcf as [Hcf|[Hcf|[]]]; [left; exact Hcf|].
        injection Hcf as _ <-. right. reflexivity. }
  destruct H1 as (Hinv1 & Hnd1 & Horig).
  destruct (IH s1 Hinv1 Hnd1) as (Hinv2 & Hnd2 & Horig2).
  split; [exact Hinv2|split; [exact Hnd2|]].
  intros c f Hcf. destruct (Horig2 c f Hcf) as [H|H]; [|right; right; exact H].
  destruct (Horig c f H) as [H'|<-]; [left; exact H'|right; left; reflexivity].
Qed.

Lemma prefix_split (a f : string) :
  String.prefix a f = true -> f = a +:+ substr_from f (String.length a).
Proof.
  revert f. induction a as [|c a IH]; intros f H.
  - symmetry. apply substr_from_0.
  - destruct f as [|c' f]; [discriminate|]. simpl in H.
    destruct (ascii_dec c c') as [<-|]; [|discriminate].
    change (String.length (String c a)) with (S (String.length a)).
    rewrite substr_from_cons. set (t := substr_from f (String.length a)).
    rewrite (IH f H). reflexivity.
Qed.

Lemma append_cancel_l (a x y : string) : a +:+ x = a +:+ y -> x = y.
Proof.
  induction a as [|c a IH]; intros H; [exact H|]. apply IH.
  change (String c (a +:+ x) = String c (a +:+ y)) in H. injection H as H. exact H.
Qed.

Lemma append_cancel_r (x y z : string) : x +:+ z = y +:+ z -> x = y.
Proof.
  intros H. assert (Hl : String.length x = String.length y).
  { pose proof (f_equal String.length H) as H'. rewrite !length_append in H'. lia. }
  rewrite <- (substring_app_l x z), <- (substring_app_l y z), H, Hl. reflexivity.
Qed.

Lemma output_path_inj (outputPrefix f1 f2 : string) (pr : ProjectInfo) :
  output_path outputPrefix f1 pr = output_path outputPrefix f2 pr ->
  substr_from f1 (String.length pr.(source_path)) = substr_from f2 (String.length pr.(source_path)).
Proof.
  unfold output_path. intros H.
  apply append_cancel_l in H. apply (append_cancel_l "/") in H.
  apply append_cancel_l in H. apply (append_cancel_l "/") in H.
  exact (append_cancel_r _ _ _ H).
Qed.

Lemma ends_with_qdoc (base : string) : ends_with ".qdoc" (base +:+ ".qdoc") = true.
Proof.
  unfold ends_with. rewrite length_append. change (String.length ".qdoc") with 5.
  rewrite Nat.add_sub. rewrite <- (Nat.add_0_r (String.length base)) at 1.
  rewrite substring_app_r. reflexivity.
Qed.

(** The NotInDB loop of [main], from no scheduled job: it schedules each file
    at most once (a file delayed twice by the Sources loop is not recovered
    twice), every scheduled file comes from [NotInDB], and it lies in a
    project that is not [External] whose output path for it has been claimed
    in [exists_files_]. *)
Theorem notInDB_loop_distinct (outputPrefix : string) (projects : list ProjectInfo)
    (db : Database) (AllFiles : list string) (IsProcessingAllDirectory : bool)
    (readable : string -> bool) (date : string) (NotInDB : list string)
    (ef : gset string) (pgs : list Page) (oi : list string) :
  let s := notInDB_loop outputPrefix projects db AllFiles IsProcessingAllDirectory readable
             date NotInDB (mkRunState ef [] pgs oi) in
  NoDup (map snd (scheduled s)) /\
  forall c f, In (c, f) (scheduled s) -> In f NotInDB /\ exists idx pr,
    projectForFile projects f = Some idx /\ projects !! idx = Some pr /\
    pr.(type) <> External /\ output_path outputPrefix f pr ∈ exists_files s.
Proof.
  cbv zeta.
  destruct (notInDB_fold outputPrefix projects db AllFiles IsProcessingAllDirectory readable
              date NotInDB (mkRunState ef [] pgs oi)) as (Hinv & Hnd & Horig);
    [intros c f []|constructor|].
  split; [exact Hnd|]. intros c f Hcf. split; [|exact (Hinv c f Hcf)].
  destruct (Horig c f Hcf) as [[]|H]. exact H.
Qed.

(** The recovered command of a ".qdoc" file: after the filename
    substitution, "-xc++" goes right after the compiler and
    "-include <base>.h" is appended, naming the header beside the file. *)
Theorem recovered_command_qdoc (c0 : string) (rest : list string)
    (fileForCommands it base : string) :
  recovered_command (c0 :: rest) fileForCommands it (base +:+ ".qdoc") =
  replace [c0] fileForCommands it ++ ["-xc++"] ++ replace rest fileForCommands it ++
    ["-include"; base +:+ ".h"].
Proof.
  unfold recovered_command. rewrite ends_with_qdoc.
  rewrite length_append. change (String.length ".qdoc") with 5.
  rewrite Nat.add_sub, substring_app_l.
  unfold replace. cbn [map take drop]. rewrite <- !app_assoc. reflexivity.
Qed.

(** Claiming one file of a project leaves [shouldProcess]'s answer for any
    other file of the same project as it was: distinct files under the
    project's source path have distinct output paths. *)
Theorem shouldProcess_other_file (outputPrefix f1 f2 : string) (pr : ProjectInfo)
    (st : gset string) :
  String.prefix pr.(source_path) f1 = true -> String.prefix pr.(source_path) f2 = true ->
  f1 <> f2 ->
  (shouldProcess outputPrefix f2 (Some pr) (shouldProcess outputPrefix f1 (Some pr) st).2).1 =
  (shouldProcess outputPrefix f2 (Some pr) st).1.
Proof.
  intros H1 H2 Hne. unfold shouldProcess.
  destruct (type pr); [| |reflexivity]; unfold addFile_Locked;
    (destruct (decide (output_path outputPrefix f1 pr ∈ st)); [reflexivity|]); cbn [snd];
    (destruct (decide (output_path outputPrefix f2 pr ∈ {[output_path outputPrefix f1 pr]} ∪ st))
       as [Hin|Hin];
     destruct (decide (output_path outputPrefix f2 pr ∈ st)); try reflexivity; [|set_solver]);
    apply elem_of_union in Hin as [Hin|Hin]; try contradiction;
    apply elem_of_singleton in Hin; apply output_path_inj in Hin;
    destruct Hne; rewrite (prefix_split _ _ H1), (prefix_split _ _ H2), Hin; reflexivity.
Qed.

Lemma shouldProcess_other_file_witness :
  String.prefix Fixtures.app_proj.(source_path) "/src/app/a.cc" = true /\
  String.prefix Fixtures.app_proj.(source_path) "/src/app/b.cc" = true /\
  "/src/app/a.cc" <> "/src/app/b.cc" /\
  (shouldProcess "/out" "/src/app/b.cc" (Some Fixtures.app_proj)
     (shouldProcess "/out" "/src/app/a.cc" (Some Fixtures.app_proj) ∅).2).1 =
  (shouldProcess "/out" "/src/app/b.cc" (Some Fixtures.app_proj) ∅).1.
Proof.
  assert (H1 : String.prefix Fixtures.app_proj.(source_path) "/src/app/a.cc" = true)
    by reflexivity.
  assert (H2 : String.prefix Fixtures.app_proj.(source_path) "/src/app/b.cc" = true)
    by reflexivity.
  assert (H3 : "/src/app/a.cc" <> "/src/app/b.cc") by discriminate.
  split; [exact H1|split; [exact H2|split; [exact H3|]]].
  exact (shouldProcess_other_file "/out" _ _ _ ∅ H1 H2 H3).
Defined.

End DispatcherFacts.

Module DiagnosticsFacts.
Import Diagnostics.

Lemma error_line_prefix (x : string) :
  String.prefix "FATAL " (String.append "Error: " x) = false.
Proof. reflexivity. Qed.

Lemma c_str_prefix (s : string) : String.prefix (c_str s) s = true.
Proof.
  induction s as [|c s IH]; [reflexivity|]. simpl.
  destruct (Ascii.eqb c (ascii_of_nat 0)); [reflexivity|].
  simpl. destruct (ascii_dec c c); [exact IH|congruence].
Qed.

Lemma c_str_no_nul (s : string) : ~ In (ascii_of_nat 0) (list_ascii_of_string (c_str s)).
Proof.
  induction s as [|c s IH]; [simpl; tauto|]. simpl.
  destruct (Ascii.eqb c (ascii_of_nat 0)) eqn:E; [simpl; tauto|].
  simpl. intros [H|H]; [|exact (IH H)].
  subst c. rewrite Ascii.eqb_refl in E. discriminate.
Qed.

(** [HandleDiagnostic] by level: a warning is reported as "warning" and
    printed nowhere; an error, and a fatal error outside immintrin.h, is
    reported as "error" and printed to [std::cerr] (the fatal one behind
    "FATAL "); every other level, and a fatal error in immintrin.h, is
    neither reported nor printed. The message reported, and printed after
    the location, is the formatted diagnostic up to its first NUL
    character ([diag.c_str()]): a prefix of it that contains no NUL. *)
Theorem HandleDiagnostic_table (lvl : Level) (loc : PresumedLoc) (diag : string) :
  let h := HandleDiagnostic lvl loc diag in
  (h.(reported) = Some (c_str diag, "warning") <-> lvl = Warning) /\
  (h.(reported) = Some (c_str diag, "error") <->
     lvl = Error \/ (lvl = Fatal /\ isImmintrinDotH loc = false)) /\
  (h.(reported) = None <->
     lvl = Ignored \/ lvl = Note \/ lvl = Remark \/ (lvl = Fatal /\ isImmintrinDotH loc = true)) /\
  (forall m c, h.(reported) = Some (m, c) ->
     m = c_str diag /\ String.prefix m diag = true /\
     ~ In (ascii_of_nat 0) (list_ascii_of_string m)) /\
  (h.(cerr_text) <> "" <-> h.(reported) = Some (c_str diag, "error")) /\
  (String.prefix "FATAL " h.(cerr_text) = true <->
     lvl = Fatal /\ isImmintrinDotH loc = false).
Proof.
  cbv zeta. unfold HandleDiagnostic.
  destruct lvl; [| | | | |destruct (isImmintrinDotH loc) eqn:Hi];
    cbn [reported cerr_text];
    repeat split; intros;
    repeat match goal with
           | H : _ \/ _ |- _ => destruct H
           | H : _ /\ _ |- _ => destruct H
           | H : Some _ = Some _ |- _ => injection H as <-
           end;
    try discriminate; try congruence; auto;
    try (left; reflexivity); try (right; reflexivity);
    try (right; right; right; split; reflexivity);
    try (right; split; reflexivity);
    try (rewrite error_line_prefix in *; discriminate);
    try (do 2 right; left; reflexivity);
    try (right; left; reflexivity);
    try apply c_str_prefix; try apply c_str_no_nul.
Qed.

End DiagnosticsFacts.

Module RefFilesFacts.
Import RefFiles.

Lemma GetRefFile_step (s : string) (st : RefStore) :
  ref_store_wf st ->
  let (r, st') := GetRefFile s st in
  ref_store_wf st' /\ st'.(ref_files) !! s = Some r /\
  (forall k r0, st.(ref_files) !! k = Some r0 -> st'.(ref_files) !! k = Some r0).
Proof.
  intros [Hp Hi]. unfold GetRefFile.
  destruct (ref_files st !! s) as [r|] eqn:Hs; [split; [split; auto|auto]|].
  unfold ref_store_wf; cbn [ref_files next_id]. split; [split|split].
  - intros k r0 Hk. destruct (decide (k = s)) as [->|Hne].
    + rewrite lookup_insert_eq in Hk. injection Hk as <-. cbn. split; [reflexivity|lia].
    + rewrite lookup_insert_ne in Hk by congruence. destruct (Hp k r0 Hk). split; [auto|lia].
  - intros k1 k2 r1 r2 H1 H2 Heq.
    destruct (decide (k1 = s)) as [->|Hn1]; destruct (decide (k2 = s)) as [->|Hn2]; auto.
    + rewrite lookup_insert_eq in H1. rewrite lookup_insert_ne in H2 by congruence.
      injection H1 as <-. destruct (Hp k2 r2 H2) as [_ Hl]. cbn in Heq. lia.
    + rewrite lookup_insert_eq in H2. rewrite lookup_insert_ne in H1 by congruence.
      injection H2 as <-. destruct (Hp k1 r1 H1) as [_ Hl]. cbn in Heq. lia.
    + rewrite lookup_insert_ne in H1, H2 by congruence. exact (Hi k1 k2 r1 r2 H1 H2 Heq).
  - apply lookup_insert_eq.
  - intros k r0 Hk. rewrite lookup_insert_ne; [exact Hk|]. congruence.
Qed.

Lemma GetRefFile_trace (calls : list string) :
  forall st, ref_store_wf st ->
  let (rs, st') := run_trace GetRefFile calls st in
  List.length rs = List.length calls /\ ref_store_wf st' /\
  (forall i r s, rs !! i = Some r -> calls !! i = Some s -> st'.(ref_files) !! s = Some r) /\
  (forall k r0, st.(ref_files) !! k = Some r0 -> st'.(ref_files) !! k = Some r0).
Proof.
  induction calls as [|c rest IH]; intros st Hwf; cbn [run_trace].
  - split; [reflexivity|split; [exact Hwf|split; [|auto]]].
    intros i r s Hr. rewrite lookup_nil in Hr. discriminate.
  - pose proof (GetRefFile_step c st Hwf) as Hst.
    destruct (GetRefFile c st) as [r st1].
    destruct Hst as (Hwf1 & Hc & Hm1).
    pose proof (IH st1 Hwf1) as Hrest.
    destruct (run_trace GetRefFile rest st1) as [rs st2].
    destruct Hrest as (Hl & Hwf2 & Hlk & Hm2).
    split; [cbn; rewrite Hl; reflexivity|split; [exact Hwf2|split]].
    + intros [|i] r' s Hr Hs; cbn in Hr, Hs.
      * injection Hr as <-. injection Hs as <-. exact (Hm2 _ _ Hc).
      * exact (Hlk i r' s Hr Hs).
    + intros k r0 Hk. exact (Hm2 _ _ (Hm1 _ _ Hk)).
Qed.

(** [GetRefFile] (and [GetFuncIndexFile]) over any sequence of calls from an
    empty map: every call returns the element constructed from its own
    path, and two calls return the same object (the same address) exactly
    when they ask for the same path. *)
Theorem GetRefFile_identity (calls : list string) :
  let (rs, _) := run_trace GetRefFile calls ref_store_init in
  List.length rs = List.length calls /\
  (forall i r s, rs !! i = Some r -> calls !! i = Some s -> r.(ref_path) = s) /\
  (forall i j ri rj si sj, rs !! i = Some ri -> rs !! j = Some rj ->
     calls !! i = Some si -> calls !! j = Some sj ->
     (ri.(ref_id) = rj.(ref_id) <-> si = sj)).
Proof.
  assert (H0 : ref_store_wf ref_store_init).
  { split; intros k; [intros r Hk|intros k2 r1 r2 Hk]; cbn in Hk;
      rewrite lookup_empty in Hk; discriminate. }
  pose proof (GetRefFile_trace calls ref_store_init H0) as H.
  destruct (run_trace GetRefFile calls ref_store_init) as [rs st].
  destruct H as (Hl & [Hp Hi] & Hlk & _).
  split; [exact Hl|split].
  - intros i r s Hr Hs. exact (proj1 (Hp _ _ (Hlk i r s Hr Hs))).
  - intros i j ri rj si sj Hri Hrj Hsi Hsj.
    pose proof (Hlk i ri si Hri Hsi) as Li. pose proof (Hlk j rj sj Hrj Hsj) as Lj.
    split; [exact (Hi _ _ _ _ Li Lj)|].
    intros <-. rewrite Li in Lj. injection Lj as ->. reflexivity.
Qed.

End RefFilesFacts.

Module GateFacts.
Import Guard.

(** [shouldProcess0], the gate of the Sources loop, is [shouldProcess]
    without the claim: [shouldProcess] answers true exactly when
    [shouldProcess0] does and the output path is not claimed yet. *)
Theorem shouldProcess0_gate (outputPrefix f : string) (p : option ProjectInfo)
    (st : gset string) :
  (shouldProcess outputPrefix f p st).1 = true <->
  shouldProcess0 f p = true /\ exists pr, p = Some pr /\ output_path outputPrefix f pr ∉ st.
Proof.
  unfold shouldProcess, shouldProcess0. destruct p as [pr|];
    [|split; [discriminate|intros [_ (pr & H & _)]; discriminate]].
  destruct (type pr); [| |split; [discriminate|intros [H _]; discriminate]];
    unfold addFile_Locked; destruct (decide _) as [Hin|Hin]; cbn [fst].
  1,3: split; [discriminate|intros [_ (pr' & Hp & Hn)]; injection Hp as <-; contradiction].
  all: split; [intros _; split; [reflexivity|exists pr; auto]|reflexivity].
Qed.

End GateFacts.

Module RecoveryPathClaims.
Import Registry Guard Recovery Dispatcher.

Lemma notInDB_step_job (outputPrefix : string) (projects : list ProjectInfo)
    (db : Database) (AllFiles : list string) (IsProcessingAllDirectory : bool)
    (readable : string -> bool) (date it : string) (s : RunState) (cmd : list string)
    (f : string) :
  scheduled (notInDB_step outputPrefix projects db AllFiles IsProcessingAllDirectory
               readable date it s) = scheduled s ++ [(cmd, f)] ->
  f = it /\ exists cc rest fileForCommands,
    recover_commands db AllFiles it = (cc :: rest, fileForCommands) /\
    cmd = recovered_command cc.(CommandLine) fileForCommands it it.
Proof.
  assert (Hno : forall (l : list (list string * string)) x, l <> l ++ [x]).
  { intros l x H. apply (f_equal (@List.length _)) in H. rewrite length_app in H.
    simpl in H. lia. }
  unfold notInDB_step. cbv zeta.
  destruct (projectForFile projects it) as [idx|]; [|intros H; exfalso; exact (Hno _ _ H)].
  destruct (shouldProcess outputPrefix it (projects !! idx) (exists_files s)) as [ok ef].
  destruct ok; cbn [negb]; [|intros H; exfalso; exact (Hno _ _ H)].
  destruct (recover_commands db AllFiles it) as [cmds f4c] eqn:Hr.
  destruct cmds as [|cc rest]; destruct IsProcessingAllDirectory; cbn [negb andb];
    repeat match goal with
           | |- context [match ?x with _ => _ end] =>
               lazymatch x with Some _ => fail | _ => destruct x end
           | |- context [if ?b then _ else _] => destruct b
           end;
    cbn [scheduled set_exists_files schedule emit_page];
    intros H; try (exfalso; exact (Hno _ _ H));
    apply app_inj_tail in H as [_ H]; injection H as <- <-;
    (split; [reflexivity|]); exists cc, rest, f4c; split; reflexivity.
Qed.

(** C5 (amended): in the recovery path of the NotInDB loop, for a file
    without compile commands, the job scheduled for it runs the command of
    the nearest known file with [std::replace] applied: every token equal to
    the nearest file's path becomes the NotInDB entry, every other token is
    kept as it is, also one that contains the nearest file's path inside a
    longer string; for a ".qdoc" file the qdoc flags are then added around
    that substituted command. *)
Theorem replace_whole_tokens (outputPrefix : string) (projects : list ProjectInfo)
    (db : Database) (AllFiles : list string) (IsProcessingAllDirectory : bool)
    (readable : string -> bool) (date it : string) (s : RunState) (cmd : list string)
    (f : string) :
  db it = [] ->
  scheduled (notInDB_step outputPrefix projects db AllFiles IsProcessingAllDirectory
               readable date it s) = scheduled s ++ [(cmd, f)] ->
  f = it /\ exists nearest cc rest substituted,
    nearest_file AllFiles it = Some nearest /\ db nearest = cc :: rest /\
    List.length substituted = List.length cc.(CommandLine) /\
    (forall i t, cc.(CommandLine) !! i = Some t ->
       substituted !! i = Some (if String.eqb t nearest then it else t)) /\
    (ends_with ".qdoc" it = false -> cmd = substituted) /\
    (ends_with ".qdoc" it = true ->
       cmd = (take 1 substituted ++ ["-xc++"] ++ drop 1 substituted) ++
             ["-include"; String.substring 0 (String.length it - 5) it +:+ ".h"]).
Proof.
  intros Hdb Hs.
  destruct (notInDB_step_job _ _ _ _ _ _ _ _ _ _ _ Hs) as (Hf & cc & rest & f4c & Hr & Hc).
  split; [exact Hf|].
  unfold recover_commands in Hr. rewrite Hdb in Hr.
  destruct (nearest_file AllFiles it) as [nearest|]; [|discriminate].
  injection Hr as Hdbn <-.
  exists nearest, cc, rest, (replace cc.(CommandLine) nearest it).
  split; [reflexivity|]. split; [exact Hdbn|]. split; [apply length_map|].
  split; [intros i t Hi; unfold replace; rewrite list_lookup_fmap, Hi; reflexivity|].
  unfold recovered_command in Hc. rewrite Hc.
  split; intros Hq; rewrite Hq; reflexivity.
Qed.

Lemma replace_whole_tokens_witness :
  Fixtures.z_db "/src/app/m.cc" = [] /\
  scheduled (notInDB_step "/out" [Fixtures.app_proj] Fixtures.z_db
               ["/src/app/a.cc"; "/src/app/z.cc"] false (fun _ => true) "2026-Oct-15"
               "/src/app/m.cc" Fixtures.empty_run)
    = scheduled Fixtures.empty_run ++
        [(["clang++"; "-c"; "/src/app/m.cc"; "-MF/src/app/z.cc.d"], "/src/app/m.cc")] /\
  exists nearest cc rest substituted,
    nearest_file ["/src/app/a.cc"; "/src/app/z.cc"] "/src/app/m.cc" = Some nearest /\
    Fixtures.z_db nearest = cc :: rest /\
    List.length substituted = List.length cc.(CommandLine) /\
    (forall i t, cc.(CommandLine) !! i = Some t ->
       substituted !! i = Some (if String.eqb t nearest then "/src/app/m.cc" else t)) /\
    (ends_with ".qdoc" "/src/app/m.cc" = false ->
       ["clang++"; "-c"; "/src/app/m.cc"; "-MF/src/app/z.cc.d"] = substituted) /\
    (ends_with ".qdoc" "/src/app/m.cc" = true ->
       ["clang++"; "-c"; "/src/app/m.cc"; "-MF/src/app/z.cc.d"] =
         (take 1 substituted ++ ["-xc++"] ++ drop 1 substituted) ++
         ["-include"; String.substring 0 (String.length "/src/app/m.cc" - 5) "/src/app/m.cc"
                        +:+ ".h"]).
Proof.
  assert (H1 : Fixtures.z_db "/src/app/m.cc" = []) by reflexivity.
  assert (H2 : scheduled (notInDB_step "/out" [Fixtures.app_proj] Fixtures.z_db
               ["/src/app/a.cc"; "/src/app/z.cc"] false (fun _ => true) "2026-Oct-15"
               "/src/app/m.cc" Fixtures.empty_run)
    = scheduled Fixtures.empty_run ++
        [(["clang++"; "-c"; "/src/app/m.cc"; "-MF/src/app/z.cc.d"], "/src/app/m.cc")])
    by (vm_compute; reflexivity).
  split; [exact H1|]. split; [exact H2|].
  exact (proj2 (replace_whole_tokens _ _ _ _ _ _ _ _ _ _ _ H1 H2)).
Defined.

End RecoveryPathClaims.
